(** * dns.resolver: a shallow embedding of the stub resolver core

    The development follows [src/dns/resolver.py]: the [NXDOMAIN]
    exception and its merge, [Answer] construction, the simple [Cache],
    the [LRUCache] with its circular doubly-linked recency list, the
    [_Resolution] state machine and the [Resolver.resolve] driver loop.

    Conventions.
    - Python exceptions are values of [exn]; a computation that may raise
      returns an [outcome].  State that survives a raise (the object being
      mutated, the clock) is returned next to the outcome.
    - [time.time()] reads a clock oracle; every call consumes one reading.
      Python floats (wall-clock instants, the back-off) are rationals.
    - Objects that are mutated through several references (the LRU nodes)
      live in an explicit object store addressed by [addr]. *)

From Stdlib Require Import QArith Qminmax Lqa ZArith Lia.
From stdpp Require Import gmap strings list fin_maps sorting.


(** ** Names, record sets and messages (collaborators of the resolver) *)

(** Modelled from the spec: [dns.name.Name] is not part of the sources at
    hand.  A DomainName is "a sequence of labels with an absolute/relative
    flag", with [is_absolute], the label count, [parent()] (which "may fail
    at root") and [concatenate(suffix)]. *)
Module Name.
Record t := mk { labels : list string; absolute : bool }.

#[global] Instance eq_dec : EqDecision t.
Proof. solve_decision. Defined.

#[global] Instance countable : Countable t :=
  inj_countable' (fun n => (labels n, absolute n))
                 (fun p => mk p.1 p.2)
                 (fun n => match n with mk _ _ => eq_refl end).

Definition is_absolute (n : t) : bool := absolute n.
Definition len (n : t) : nat := length (labels n).
Definition root : t := mk [] true.
Definition empty : t := mk [] false.
Definition concatenate (n suffix : t) : t :=
  mk (labels n ++ labels suffix) (absolute n || absolute suffix).
(** [None] stands for [dns.name.NoParent]. *)
Definition parent (n : t) : option t :=
  match labels n with
  | [] => None
  | _ :: rest => Some (mk rest (absolute n))
  end.
End Name.

(** Modelled from the spec: the numeric codes of [dns.rdatatype],
    [dns.rdataclass] and [dns.rcode] are declared outside the sources at
    hand; they carry their registered values. *)
Module rdatatype.
Definition A : Z := 1.
Definition CNAME : Z := 5.
Definition SOA : Z := 6.
End rdatatype.

Module rdataclass.
Definition IN : Z := 1.
End rdataclass.

Module rcode.
Definition NOERROR : Z := 0.
Definition SERVFAIL : Z := 2.
Definition NXDOMAIN : Z := 3.
Definition YXDOMAIN : Z := 6.
End rcode.

(** The records of an RRset.  Only the two attributes the resolver reads
    are distinguished: [target] of a CNAME and [minimum] of an SOA. *)
Inductive Rdata :=
| RdCNAME (target : Name.t)
| RdSOA (minimum : Z)
| RdOther (text : string).

Record RRset := mkRRset {
  rr_name : Name.t;
  rr_rdclass : Z;
  rr_rdtype : Z;
  ttl : Z;
  items : list Rdata
}.

(** A [dns.message.Message], used both for the outgoing request and for
    the response. *)
Record Message := mkMessage {
  question : Name.t * Z * Z;
  msg_flags : option Z;
  msg_tsig : option (string * string);
  msg_edns : Z * Z * Z;
  msg_rcode : Z;
  answer : list RRset;
  authority : list RRset
}.

(** Modelled from the spec: [Message.find_rrset] belongs to the message
    codec, "find_rrset(section, owner, class, type) -> rrset | raises
    not-found"; [None] stands for the [KeyError]. *)
Definition find_rrset (section : list RRset) (name : Name.t) (rdclass rdtype : Z)
  : option RRset :=
  List.find (fun rr => bool_decide (rr_name rr = name)
                       && (rr_rdclass rr =? rdclass)%Z
                       && (rr_rdtype rr =? rdtype)%Z) section.

(** Modelled from the spec: [dns.message.make_query], "returns a buildable
    request"; EDNS is off ([-1]) until [use_edns] is called. *)
Definition make_query (qname : Name.t) (rdtype rdclass : Z) : Message :=
  mkMessage (qname, rdtype, rdclass) None None (-1, 0, 0)%Z rcode.NOERROR [] [].

Definition use_tsig (keyring keyname : string) (m : Message) : Message :=
  mkMessage (question m) (msg_flags m) (Some (keyring, keyname)) (msg_edns m)
            (msg_rcode m) (answer m) (authority m).

Definition use_edns (edns ednsflags payload : Z) (m : Message) : Message :=
  mkMessage (question m) (msg_flags m) (msg_tsig m) (edns, ednsflags, payload)
            (msg_rcode m) (answer m) (authority m).

Definition set_flags (flags : Z) (m : Message) : Message :=
  mkMessage (question m) (Some flags) (msg_tsig m) (msg_edns m)
            (msg_rcode m) (answer m) (authority m).

(** A cache key is the tuple [(qname, rdtype, rdclass)]. *)
Abbreviation CacheKey := (Name.t * Z * Z)%type.

(** ** Exceptions *)

(** The keyword arguments kept by an [NXDOMAIN] instance: the dict
    [self.kwargs] either has both keys or, for an instance built without
    arguments, none. *)
Record NXDOMAIN_kwargs := mkKwargs {
  kw_qnames : option (list Name.t);
  kw_responses : option (gmap Name.t Message)
}.

(** The exception classes the resolver raises or tests with [isinstance].
    An entry of the [errors] log is
    [(nameserver, tcp_attempt, port, error, response)], where [error] is an
    exception or, for an unexpected rcode, its text. *)
Inductive exn :=
| AttributeError (msg : string)
| KeyError
| ValueError
| IndexError
| AssertionError
| UnboundLocalError
| SystemError (msg : string)
| FormError
| EOFError
| NotImplementedError
| Truncated
| OSError (msg : string)
| Timeout (duration : Q)
| NXDOMAIN (kwargs : NXDOMAIN_kwargs)
| YXDOMAIN
| NoAnswer (response : Message)
| NoNameservers (request : option Message) (errors : list error_entry)
| NoMetaqueries
with error_entry :=
| ErrorEntry (nameserver : option string) (tcp_attempt : bool) (port : Z)
             (error : error_obj) (response : option Message)
with error_obj :=
| ErrExn (ex : exn)
| ErrText (text : string).

Inductive outcome (A : Type) :=
| Ok (a : A)
| Raise (e : exn).
Arguments Ok {A} a.
Arguments Raise {A} e.

Definition obind {A B} (m : outcome A) (f : A -> outcome B) : outcome B :=
  match m with
  | Ok a => f a
  | Raise e => Raise e
  end.

(** ** The clock *)

(** [time.time()]: the n-th call returns [readings n]. *)
Record clock := mkClock { readings : nat -> Q; ticks : nat }.

Definition time_time (w : clock) : Q * clock :=
  (readings w (ticks w), mkClock (readings w) (S (ticks w))).

(** ** NXDOMAIN *)

Module NXDOMAIN.
Definition t := NXDOMAIN_kwargs.

(** [_check_kwargs(self, qnames, responses=None)].  The [isinstance]
    tests hold by typing: [qnames] is a list and [responses], when given,
    a dict. *)
Definition _check_kwargs (qnames : list Name.t)
           (responses : option (gmap Name.t Message)) : outcome NXDOMAIN_kwargs :=
  if (length qnames =? 0)%nat then
    Raise (AttributeError "qnames must contain at least one element")
  else
    let responses := match responses with
                     | None => ∅
                     | Some r => r
                     end in
    Ok (mkKwargs (Some qnames) (Some responses)).

(** [NXDOMAIN(qnames=..., responses=...)]: the base-class constructor
    stores the result of [_check_kwargs] in [self.kwargs]. *)
Definition __init__ (qnames : list Name.t) (responses : option (gmap Name.t Message))
  : outcome t :=
  _check_kwargs qnames responses.

(** One turn of the loop of [__add__] over [e_nx]'s qnames. *)
Definition add_step (responses1 : gmap Name.t Message)
           (acc : list Name.t * gmap Name.t Message) (qname1 : Name.t)
  : list Name.t * gmap Name.t Message :=
  let '(qnames0, responses0) := acc in
  let qnames0 := if decide (qname1 ∈ qnames0) then qnames0
                 else qnames0 ++ [qname1] in
  let responses0 := match responses1 !! qname1 with
                    | Some r => <[qname1 := r]> responses0
                    | None => responses0
                    end in
  (qnames0, responses0).

(** [__add__(self, e_nx)] *)
Definition __add__ (self e_nx : t) : outcome t :=
  let qnames0 := default [] (kw_qnames self) in
  let responses0 := default ∅ (kw_responses self) in
  let responses1 := default ∅ (kw_responses e_nx) in
  let '(qnames0, responses0) :=
    fold_left (add_step responses1) (default [] (kw_qnames e_nx))
              (qnames0, responses0) in
  __init__ qnames0 (Some responses0).

(** [qnames(self)]: [self.kwargs['qnames']] *)
Definition qnames (self : t) : outcome (list Name.t) :=
  match kw_qnames self with
  | Some q => Ok q
  | None => Raise KeyError
  end.

(** [responses(self)]: [self.kwargs['responses']] *)
Definition responses (self : t) : outcome (gmap Name.t Message) :=
  match kw_responses self with
  | Some r => Ok r
  | None => Raise KeyError
  end.

(** [response(self, qname)]: [self.kwargs['responses'][qname]] *)
Definition response (self : t) (qname : Name.t) : outcome Message :=
  match kw_responses self with
  | Some r => match r !! qname with
              | Some m => Ok m
              | None => Raise KeyError
              end
  | None => Raise KeyError
  end.
End NXDOMAIN.

(** ** A state monad with exceptions

    [M S A] is a computation over a mutable object of type [S] that
    returns an [A] or raises; the state that comes with [Raise] is the
    state at the raise. *)
Definition M (S A : Type) : Type := S -> outcome A * S.

#[global] Instance M_ret {S} : MRet (M S) := fun A a s => (Ok a, s).

#[global] Instance M_bind {S} : MBind (M S) := fun A B f m s =>
  match m s with
  | (Ok a, s') => f a s'
  | (Raise e, s') => (Raise e, s')
  end.

Definition raise {S A} (e : exn) : M S A := fun s => (Raise e, s).
Definition gets {S A} (f : S -> A) : M S A := fun s => (Ok (f s), s).
Definition modify {S} (f : S -> S) : M S unit := fun s => (Ok tt, f s).

(** Run a computation on a component of the state. *)
Definition zoom {S T A} (proj : T -> S) (upd : S -> T -> T) (m : M S A) : M T A :=
  fun t => let '(r, s) := m (proj t) in (r, upd s t).

(** A method call on the object next to the clock, and [time.time()]. *)
Definition with_clock {S A} (m : M S A) : M (S * clock) A :=
  zoom fst (fun c s => (c, s.2)) m.

Definition now {S} : M (S * clock) Q :=
  fun s => let '(t, w) := time_time s.2 in (Ok t, (s.1, w)).

(** ** Answer *)

Module Answer.
Record t := mk {
  qname : Name.t;
  rdtype : Z;
  rdclass : Z;
  response : Message;
  nameserver : option string;
  port : option Z;
  canonical_name : Name.t;
  rrset : option RRset;
  expiration : Q
}.

(** [if min_ttl == -1 or rrset.ttl < min_ttl: min_ttl = rrset.ttl] *)
Definition fold_ttl (min_ttl ttl : Z) : Z :=
  if (min_ttl =? -1)%Z || (ttl <? min_ttl)%Z then ttl else min_ttl.

(** [rd.target] *)
Definition target (rd : Rdata) : outcome Name.t :=
  match rd with
  | RdCNAME n => Ok n
  | _ => Raise (AttributeError "target")
  end.

(** [rd.minimum] *)
Definition minimum (rd : Rdata) : outcome Z :=
  match rd with
  | RdSOA m => Ok m
  | _ => Raise (AttributeError "minimum")
  end.

(** The loop [for count in range(0, 15)], with [count] turns left.  It
    yields the [rrset] found (if any), the last [qname] and [min_ttl]. *)
Fixpoint chase (count : nat) (response : Message) (rdtype rdclass : Z)
         (raise_on_no_answer : bool) (qname : Name.t) (min_ttl : Z)
  : outcome (option RRset * Name.t * Z) :=
  match count with
  | O => Ok (None, qname, min_ttl)
  | S count =>
    match find_rrset (answer response) qname rdclass rdtype with
    | Some rrset => Ok (Some rrset, qname, fold_ttl min_ttl (ttl rrset))
    | None =>
      if negb (rdtype =? rdatatype.CNAME)%Z then
        match find_rrset (answer response) qname rdclass rdatatype.CNAME with
        | Some crrset =>
          let min_ttl := fold_ttl min_ttl (ttl crrset) in
          match items crrset with
          | rd :: _ =>
            match target rd with
            | Ok qname =>
              chase count response rdtype rdclass raise_on_no_answer qname min_ttl
            | Raise e => Raise e
            end
          | [] =>
            chase count response rdtype rdclass raise_on_no_answer qname min_ttl
          end
        | None =>
          if raise_on_no_answer then Raise (NoAnswer response)
          else chase count response rdtype rdclass raise_on_no_answer qname min_ttl
        end
      else
        if raise_on_no_answer then Raise (NoAnswer response)
        else chase count response rdtype rdclass raise_on_no_answer qname min_ttl
    end
  end.

(** The loop [while 1] that looks for an SOA at [qname] or one of its
    superdomains.  [qname.parent()] drops the first label and raises
    [NoParent] when there is none, so the walk is a recursion on the
    labels of [qname]. *)
Fixpoint soa_walk (response : Message) (rdclass : Z) (labels : list string)
         (absolute : bool) (min_ttl : Z) : outcome Z :=
  match find_rrset (authority response) (Name.mk labels absolute)
                   rdclass rdatatype.SOA with
  | Some srrset =>
    let min_ttl := fold_ttl min_ttl (ttl srrset) in
    match items srrset with
    | [] => Raise IndexError
    | rd :: _ =>
      match minimum rd with
      | Ok m => Ok (if (m <? min_ttl)%Z then m else min_ttl)
      | Raise e => Raise e
      end
    end
  | None =>
    match labels with
    | [] => Ok min_ttl
    | _ :: rest => soa_walk response rdclass rest absolute min_ttl
    end
  end.

(** The value of [min_ttl] when the constructor reaches its last line,
    with the rrset and the canonical name. *)
Definition assemble (qname : Name.t) (rdtype rdclass : Z) (response : Message)
           (raise_on_no_answer : bool) : outcome (option RRset * Name.t * Z) :=
  match chase 15 response rdtype rdclass raise_on_no_answer qname (-1) with
  | Raise e => Raise e
  | Ok (rrset, qname, min_ttl) =>
    match rrset with
    | None =>
      if raise_on_no_answer then Raise (NoAnswer response)
      else
        match soa_walk response rdclass (Name.labels qname)
                       (Name.absolute qname) min_ttl with
        | Ok min_ttl => Ok (None, qname, min_ttl)
        | Raise e => Raise e
        end
    | Some _ => Ok (rrset, qname, min_ttl)
    end
  end.

(** [Answer.__init__]; the clock is read once, on the last line:
    [self.expiration = time.time() + min_ttl]. *)
Definition __init__ (qname : Name.t) (rdtype rdclass : Z) (response : Message)
           (raise_on_no_answer : bool) (nameserver : option string)
           (port : option Z) : M clock t :=
  fun w =>
    match assemble qname rdtype rdclass response raise_on_no_answer with
    | Raise e => (Raise e, w)
    | Ok (rrset, canonical_name, min_ttl) =>
      let '(now, w) := time_time w in
      (Ok (mk qname rdtype rdclass response nameserver port canonical_name
              rrset (now + inject_Z min_ttl)%Q), w)
    end.

(** [__len__]: [self.rrset and len(self.rrset) or 0] *)
Definition __len__ (self : t) : nat :=
  match rrset self with
  | Some r => length (items r)
  | None => 0
  end.
End Answer.

(** ** The simple cache *)

Module Cache.
Record t := mk {
  data : gmap CacheKey Answer.t;
  cleaning_interval : Q;
  next_cleaning : Q
}.

Definition __init__ (cleaning_interval : Q) : M clock t :=
  fun w =>
    let '(now, w) := time_time w in
    (Ok (mk ∅ cleaning_interval (now + cleaning_interval)%Q), w).

(** The first loop of [_maybe_clean]: the keys of the stale entries, in
    the order of [self.data.items()]. *)
Definition keys_to_delete (now : Q) (items : list (CacheKey * Answer.t))
  : list CacheKey :=
  fold_left (fun acc kv => if Qle_bool (Answer.expiration kv.2) now
                           then acc ++ [kv.1] else acc) items [].

(** [_maybe_clean(self)].  [del self.data[k]] cannot raise here: every
    [k] was just read from the dict, once. *)
Definition _maybe_clean (self : t) (w : clock) : t * clock :=
  let '(now, w) := time_time w in
  if Qle_bool (next_cleaning self) now then
    let ks := keys_to_delete now (map_to_list (data self)) in
    let data := fold_left (fun d k => delete k d) ks (data self) in
    let '(now, w) := time_time w in
    (mk data (cleaning_interval self) (now + cleaning_interval self)%Q, w)
  else (self, w).

(** [get(self, key)]; [v is None or v.expiration <= time.time()] reads
    the clock only when an entry was found. *)
Definition get (self : t) (key : CacheKey) (w : clock)
  : option Answer.t * t * clock :=
  let '(self, w) := _maybe_clean self w in
  match data self !! key with
  | None => (None, self, w)
  | Some v =>
    let '(now, w) := time_time w in
    if Qle_bool (Answer.expiration v) now then (None, self, w)
    else (Some v, self, w)
  end.

(** [put(self, key, value)] *)
Definition put (self : t) (key : CacheKey) (value : Answer.t) (w : clock)
  : t * clock :=
  let '(self, w) := _maybe_clean self w in
  (mk (<[key := value]> (data self)) (cleaning_interval self)
      (next_cleaning self), w).

(** [flush(self, key=None)] *)
Definition flush (self : t) (key : option CacheKey) (w : clock) : t * clock :=
  match key with
  | Some key =>
    (mk (delete key (data self)) (cleaning_interval self) (next_cleaning self), w)
  | None =>
    let '(now, w) := time_time w in
    (mk ∅ (cleaning_interval self) (now + cleaning_interval self)%Q, w)
  end.
End Cache.

(** ** The LRU cache *)

(** Node objects are referred to by address; [store] holds the node
    objects.  Reading an address that holds no object has no counterpart
    in Python and is reported as [SystemError]. *)
Abbreviation addr := nat.

Module LRUCacheNode.
Record t := mk {
  key : option CacheKey;
  value : option Answer.t;
  prev : addr;
  next : addr
}.

Abbreviation store := (gmap addr t).

Definition load (a : addr) : M store t :=
  fun h => match h !! a with
           | Some n => (Ok n, h)
           | None => (Raise (SystemError "dangling reference"), h)
           end.

(** [a.prev = p] *)
Definition set_prev (a p : addr) : M store unit :=
  n ← load a; modify (insert a (mk (key n) (value n) p (next n))).

(** [a.next = x] *)
Definition set_next (a x : addr) : M store unit :=
  n ← load a; modify (insert a (mk (key n) (value n) (prev n) x)).

(** [__init__(self, key, value)], for the new object at [self] *)
Definition __init__ (self : addr) (key : option CacheKey)
           (value : option Answer.t) : M store unit :=
  modify (insert self (mk key value self self)).

(** [link_before(self, node)] *)
Definition link_before (self node : addr) : M store unit :=
  n ← load node; set_prev self (prev n);;
  set_next self node;;
  n ← load node; set_next (prev n) self;;
  set_prev node self.

(** [link_after(self, node)] *)
Definition link_after (self node : addr) : M store unit :=
  set_prev self node;;
  n ← load node; set_next self (next n);;
  n ← load node; set_prev (next n) self;;
  set_next node self.

(** [unlink(self)] *)
Definition unlink (self : addr) : M store unit :=
  s ← load self; set_prev (next s) (prev s);;
  s ← load self; set_next (prev s) (next s).
End LRUCacheNode.

Module LRUCache.
Record t := mk {
  data : gmap CacheKey addr;
  max_size : Z;
  sentinel : addr;
  nodes : LRUCacheNode.store;
  next_id : addr
}.

Definition with_data (f : gmap CacheKey addr -> gmap CacheKey addr) (self : t) : t :=
  mk (f (data self)) (max_size self) (sentinel self) (nodes self) (next_id self).

Definition with_nodes (h : LRUCacheNode.store) (self : t) : t :=
  mk (data self) (max_size self) (sentinel self) h (next_id self).

(** A method call on a node object. *)
Definition on_nodes {A} (m : M LRUCacheNode.store A) : M t A :=
  zoom nodes with_nodes m.

(** [set_max_size(self, max_size)] *)
Definition set_max_size (max_size : Z) (self : t) : t :=
  let max_size := if (max_size <? 1)%Z then 1%Z else max_size in
  mk (data self) max_size (sentinel self) (nodes self) (next_id self).

(** [__init__(self, max_size=100000)]; the sentinel is the first object
    made. *)
Definition __init__ (max_size : Z) : t :=
  let self := set_max_size max_size (mk ∅ 0 0 ∅ 0) in
  let sentinel := next_id self in
  match LRUCacheNode.__init__ sentinel None None (nodes self) with
  | (_, h) => mk (data self) (LRUCache.max_size self) sentinel h (S sentinel)
  end.

(** [del self.data[node.key]] *)
Definition del_data (k : option CacheKey) : M t unit :=
  fun self =>
    match k with
    | Some k =>
      match data self !! k with
      | Some _ => (Ok tt, with_data (delete k) self)
      | None => (Raise KeyError, self)
      end
    | None => (Raise KeyError, self)
    end.

(** [get(self, key)] *)
Definition get (key : CacheKey) : M (t * clock) (option Answer.t) :=
  node ← gets (fun s => data s.1 !! key);
  match node with
  | None => mret None
  | Some node =>
    with_clock (on_nodes (LRUCacheNode.unlink node));;
    n ← with_clock (on_nodes (LRUCacheNode.load node));
    match LRUCacheNode.value n with
    | None => raise (AttributeError "expiration")
    | Some v =>
      t ← now;
      if Qle_bool (Answer.expiration v) t then
        with_clock (del_data (LRUCacheNode.key n));;
        mret None
      else
        sentinel ← gets (fun s => sentinel s.1);
        with_clock (on_nodes (LRUCacheNode.link_after node sentinel));;
        mret (Some v)
    end
  end.

(** One turn of [while len(self.data) >= self.max_size]: the victim is
    [self.sentinel.prev]. *)
Definition evict_one : M t unit :=
  s ← gets sentinel;
  sn ← on_nodes (LRUCacheNode.load s);
  let node := LRUCacheNode.prev sn in
  on_nodes (LRUCacheNode.unlink node);;
  n ← on_nodes (LRUCacheNode.load node);
  del_data (LRUCacheNode.key n).

(** The loop, with [fuel] turns left; a turn that does not raise removes
    an entry of [self.data], so one turn more than [size data] is
    never needed. *)
Fixpoint evict_loop (fuel : nat) : M t unit :=
  fun self =>
    if (Z.of_nat (size (data self)) >=? max_size self)%Z then
      match fuel with
      | O => (Raise (SystemError "out of fuel"), self)
      | S fuel => (evict_one;; evict_loop fuel) self
      end
    else (Ok tt, self).

(** [put(self, key, value)] *)
Definition put (key : CacheKey) (value : Answer.t) : M t unit :=
  node ← gets (fun s => data s !! key);
  match node with
  | Some node =>
    on_nodes (LRUCacheNode.unlink node);;
    n ← on_nodes (LRUCacheNode.load node);
    del_data (LRUCacheNode.key n)
  | None => mret tt
  end;;
  fuel ← gets (fun s => S (size (data s)));
  evict_loop fuel;;
  node ← gets next_id;
  modify (fun s => mk (data s) (max_size s) (sentinel s) (nodes s) (S node));;
  on_nodes (LRUCacheNode.__init__ node (Some key) (Some value));;
  s ← gets sentinel;
  on_nodes (LRUCacheNode.link_after node s);;
  modify (with_data (insert key node)).
End LRUCache.

(** ** The resolver configuration *)

(** The object behind [resolver.cache]: either kind of cache. *)
Inductive cache_obj :=
| SimpleCache (c : Cache.t)
| BoundedCache (c : LRUCache.t).

(** [cache.get(key)] *)
Definition cache_get (key : CacheKey) : M (cache_obj * clock) (option Answer.t) :=
  fun s =>
    match s.1 with
    | SimpleCache c =>
      let '(r, c, w) := Cache.get c key s.2 in (Ok r, (SimpleCache c, w))
    | BoundedCache c =>
      let '(r, (c, w)) := LRUCache.get key (c, s.2) in (r, (BoundedCache c, w))
    end.

(** [cache.put(key, value)] *)
Definition cache_put (key : CacheKey) (value : Answer.t) : M (cache_obj * clock) unit :=
  fun s =>
    match s.1 with
    | SimpleCache c =>
      let '(c, w) := Cache.put c key value s.2 in (Ok tt, (SimpleCache c, w))
    | BoundedCache c =>
      let '(r, c) := LRUCache.put key value c in (r, (BoundedCache c, s.2))
    end.

(** [l.remove(x)]: the first occurrence goes; [ValueError] when there is
    none. *)
Fixpoint remove_first (x : string) (l : list string) : list string :=
  match l with
  | [] => []
  | y :: l => if decide (x = y) then l else y :: remove_first x l
  end.

Definition list_remove (x : option string) (l : list string) : outcome (list string) :=
  match x with
  | Some x => if decide (x ∈ l) then Ok (remove_first x l) else Raise ValueError
  | None => Raise ValueError
  end.

(** The collaborators injected into the resolver: the predicates of
    [dns.rdatatype] and [dns.rdataclass], [dns.inet.is_address],
    [urlparse(...).scheme], [dns.rcode.to_text], [random.shuffle] and the
    three transports [dns.query.udp], [dns.query.tcp] and [dns.query.https].  A transport sees the number of
    transport calls made before it in the same [resolve]. *)
Record Env := mkEnv {
  is_metatype : Z -> bool;
  is_metaclass : Z -> bool;
  is_address : option string -> bool;
  scheme : option string -> string;
  rcode_to_text : Z -> string;
  shuffle : list string -> list string;
  query_udp : nat -> option Message -> option string -> Q -> Z -> option string
              -> Z -> outcome Message;
  query_tcp : nat -> option Message -> option string -> Q -> Z -> option string
              -> Z -> outcome Message;
  query_https : nat -> option Message -> option string -> Q -> outcome Message
}.

Module Resolver.
Record t := mk {
  domain : Name.t;
  nameservers : list string;
  nameserver_ports : gmap string Z;
  port : Z;
  search : list Name.t;
  use_search_by_default : bool;
  timeout : Q;
  lifetime : Q;
  keyring : option string;
  keyname : option string;
  keyalgorithm : string;
  edns : Z;
  ednsflags : Z;
  payload : Z;
  cache : option cache_obj;
  flags : option Z;
  retry_servfail : bool;
  rotate : bool;
  ndots : option Z
}.

Definition with_cache (c : option cache_obj) (self : t) : t :=
  mk (domain self) (nameservers self) (nameserver_ports self) (port self)
     (search self) (use_search_by_default self) (timeout self) (lifetime self)
     (keyring self) (keyname self) (keyalgorithm self) (edns self)
     (ednsflags self) (payload self) c (flags self) (retry_servfail self)
     (rotate self) (ndots self).

(** [self.ndots is None or len(qname.labels) >= self.ndots] *)
Definition ndots_ok (self : t) (qname : Name.t) : bool :=
  match ndots self with
  | None => true
  | Some n => (Z.of_nat (length (Name.labels qname)) >=? n)%Z
  end.

(** [_get_qnames_to_try(self, qname, search)] *)
Definition _get_qnames_to_try (self : t) (qname : Name.t) (search : option bool)
  : list Name.t :=
  let search := match search with
                | None => use_search_by_default self
                | Some b => b
                end in
  let qnames_to_try := [] in
  if Name.is_absolute qname then qnames_to_try ++ [qname]
  else
    let qnames_to_try :=
      if (1 <? Name.len qname)%nat
      then qnames_to_try ++ [Name.concatenate qname Name.root]
      else qnames_to_try in
    if search && negb (bool_decide (Resolver.search self = [])) then
      fold_left (fun acc suffix =>
                   if ndots_ok self qname
                   then acc ++ [Name.concatenate qname suffix] else acc)
                (Resolver.search self) qnames_to_try
    else qnames_to_try ++ [Name.concatenate qname (domain self)].

(** [_compute_timeout(self, start, lifetime=None)].  The assignment
    [now = start] in the small-regression branch changes nothing that is
    read afterwards. *)
Definition _compute_timeout (self : t) (start : Q) (lifetime : option Q)
  : M clock Q :=
  fun w =>
    let lifetime := match lifetime with
                    | None => Resolver.lifetime self
                    | Some l => l
                    end in
    let '(t, w) := time_time w in
    let duration := (t - start)%Q in
    if negb (Qle_bool 0 duration) && negb (Qle_bool (-1) duration) then
      (Raise (Timeout duration), w)
    else if Qle_bool lifetime duration then (Raise (Timeout duration), w)
    else (Ok (Qmin (lifetime - duration) (timeout self)), w).
End Resolver.

(** ** The resolution state machine *)

(** What [next_nameserver] returns: a tuple of three or of four items. *)
Inductive ns_tuple :=
| Tuple3 (nameserver : option string) (port : Z) (tcp : bool)
| Tuple4 (nameserver : option string) (port : Z) (tcp : bool) (backoff : Q).

Module _Resolution.
Record t := mk {
  resolver : Resolver.t;
  qnames_to_try : list Name.t;
  qnames : list Name.t;
  rdtype : Z;
  rdclass : Z;
  tcp : bool;
  raise_on_no_answer : bool;
  nxdomain_responses : gmap Name.t Message;
  qname : Name.t;
  nameservers : list string;
  current_nameservers : list string;
  errors : list error_entry;
  nameserver : option string;
  port : Z;
  tcp_attempt : bool;
  retry_with_tcp : bool;
  request : option Message;
  backoff : Q
}.

(** Attribute assignments [self.x = v]. *)
Definition set_resolver (v : Resolver.t) (self : t) : t :=
  mk v (qnames_to_try self) (qnames self) (rdtype self) (rdclass self) (tcp
         self) (raise_on_no_answer self) (nxdomain_responses self) (qname
         self) (nameservers self) (current_nameservers self) (errors self)
         (nameserver self) (port self) (tcp_attempt self) (retry_with_tcp
         self) (request self) (backoff self).

Definition set_qnames (v : list Name.t) (self : t) : t :=
  mk (resolver self) (qnames_to_try self) v (rdtype self) (rdclass self)
         (tcp self) (raise_on_no_answer self) (nxdomain_responses self)
         (qname self) (nameservers self) (current_nameservers self) (errors
         self) (nameserver self) (port self) (tcp_attempt self)
         (retry_with_tcp self) (request self) (backoff self).

Definition set_nxdomain_responses (v : gmap Name.t Message) (self : t) : t :=
  mk (resolver self) (qnames_to_try self) (qnames self) (rdtype self)
         (rdclass self) (tcp self) (raise_on_no_answer self) v (qname self)
         (nameservers self) (current_nameservers self) (errors self)
         (nameserver self) (port self) (tcp_attempt self) (retry_with_tcp
         self) (request self) (backoff self).

Definition set_qname (v : Name.t) (self : t) : t :=
  mk (resolver self) (qnames_to_try self) (qnames self) (rdtype self)
         (rdclass self) (tcp self) (raise_on_no_answer self)
         (nxdomain_responses self) v (nameservers self) (current_nameservers
         self) (errors self) (nameserver self) (port self) (tcp_attempt
         self) (retry_with_tcp self) (request self) (backoff self).

Definition set_nameservers (v : list string) (self : t) : t :=
  mk (resolver self) (qnames_to_try self) (qnames self) (rdtype self)
         (rdclass self) (tcp self) (raise_on_no_answer self)
         (nxdomain_responses self) (qname self) v (current_nameservers self)
         (errors self) (nameserver self) (port self) (tcp_attempt self)
         (retry_with_tcp self) (request self) (backoff self).

Definition set_current_nameservers (v : list string) (self : t) : t :=
  mk (resolver self) (qnames_to_try self) (qnames self) (rdtype self)
         (rdclass self) (tcp self) (raise_on_no_answer self)
         (nxdomain_responses self) (qname self) (nameservers self) v (errors
         self) (nameserver self) (port self) (tcp_attempt self)
         (retry_with_tcp self) (request self) (backoff self).

Definition set_errors (v : list error_entry) (self : t) : t :=
  mk (resolver self) (qnames_to_try self) (qnames self) (rdtype self)
         (rdclass self) (tcp self) (raise_on_no_answer self)
         (nxdomain_responses self) (qname self) (nameservers self)
         (current_nameservers self) v (nameserver self) (port self)
         (tcp_attempt self) (retry_with_tcp self) (request self) (backoff
         self).

Definition set_nameserver (v : option string) (self : t) : t :=
  mk (resolver self) (qnames_to_try self) (qnames self) (rdtype self)
         (rdclass self) (tcp self) (raise_on_no_answer self)
         (nxdomain_responses self) (qname self) (nameservers self)
         (current_nameservers self) (errors self) v (port self) (tcp_attempt
         self) (retry_with_tcp self) (request self) (backoff self).

Definition set_port (v : Z) (self : t) : t :=
  mk (resolver self) (qnames_to_try self) (qnames self) (rdtype self)
         (rdclass self) (tcp self) (raise_on_no_answer self)
         (nxdomain_responses self) (qname self) (nameservers self)
         (current_nameservers self) (errors self) (nameserver self) v
         (tcp_attempt self) (retry_with_tcp self) (request self) (backoff
         self).

Definition set_tcp_attempt (v : bool) (self : t) : t :=
  mk (resolver self) (qnames_to_try self) (qnames self) (rdtype self)
         (rdclass self) (tcp self) (raise_on_no_answer self)
         (nxdomain_responses self) (qname self) (nameservers self)
         (current_nameservers self) (errors self) (nameserver self) (port
         self) v (retry_with_tcp self) (request self) (backoff self).

Definition set_retry_with_tcp (v : bool) (self : t) : t :=
  mk (resolver self) (qnames_to_try self) (qnames self) (rdtype self)
         (rdclass self) (tcp self) (raise_on_no_answer self)
         (nxdomain_responses self) (qname self) (nameservers self)
         (current_nameservers self) (errors self) (nameserver self) (port
         self) (tcp_attempt self) v (request self) (backoff self).

Definition set_request (v : option Message) (self : t) : t :=
  mk (resolver self) (qnames_to_try self) (qnames self) (rdtype self)
         (rdclass self) (tcp self) (raise_on_no_answer self)
         (nxdomain_responses self) (qname self) (nameservers self)
         (current_nameservers self) (errors self) (nameserver self) (port
         self) (tcp_attempt self) (retry_with_tcp self) v (backoff self).

Definition set_backoff (v : Q) (self : t) : t :=
  mk (resolver self) (qnames_to_try self) (qnames self) (rdtype self)
         (rdclass self) (tcp self) (raise_on_no_answer self)
         (nxdomain_responses self) (qname self) (nameservers self)
         (current_nameservers self) (errors self) (nameserver self) (port
         self) (tcp_attempt self) (retry_with_tcp self) (request self) v.

(** An assignment to an attribute of [self], next to the clock. *)
Definition assign (f : t -> t) : M (t * clock) unit :=
  modify (fun s => (f s.1, s.2)).

(** [__init__], for a [qname], [rdtype] and [rdclass] already converted
    from text. *)
Definition __init__ (env : Env) (resolver : Resolver.t) (qname : Name.t)
           (rdtype rdclass : Z) (tcp raise_on_no_answer : bool)
           (search : option bool) : outcome t :=
  if is_metatype env rdtype then Raise NoMetaqueries
  else if is_metaclass env rdclass then Raise NoMetaqueries
  else
    let qnames_to_try := Resolver._get_qnames_to_try resolver qname search in
    Ok (mk resolver qnames_to_try qnames_to_try rdtype rdclass tcp
           raise_on_no_answer ∅ Name.empty [] [] [] None 0 false false None 0).

(** A method call on [self.resolver.cache], a shared object. *)
Definition on_cache {A} (c : cache_obj) (m : M (cache_obj * clock) A)
  : M (t * clock) A :=
  fun s =>
    let '(r, (c, w)) := m (c, s.2) in
    (r, (set_resolver (Resolver.with_cache (Some c) (resolver s.1)) s.1, w)).

(** The request built by [next_request] for [qname]. *)
Definition build_request (self : t) (qname : Name.t) : Message :=
  let r := resolver self in
  let request := make_query qname (rdtype self) (rdclass self) in
  let request := match Resolver.keyname r with
                 | Some keyname =>
                   use_tsig (default "" (Resolver.keyring r)) keyname request
                 | None => request
                 end in
  let request := use_edns (Resolver.edns r) (Resolver.ednsflags r)
                          (Resolver.payload r) request in
  match Resolver.flags r with
  | Some f => set_flags f request
  | None => request
  end.

(** [next_request(self)] *)
Definition next_request (env : Env)
  : M (t * clock) (option Message * option Answer.t) :=
  self ← gets fst;
  match qnames self with
  | [] =>
    match NXDOMAIN.__init__ (qnames_to_try self)
                            (Some (nxdomain_responses self)) with
    | Ok e => raise (NXDOMAIN e)
    | Raise e => raise e
    end
  | _ :: _ =>
    let qname := List.last (qnames self) Name.empty in
    assign (set_qnames (removelast (qnames self)));;
    assign (set_qname qname);;
    answer ← match Resolver.cache (resolver self) with
             | Some c => on_cache c (cache_get (qname, rdtype self, rdclass self))
             | None => mret None
             end;
    match answer with
    | Some answer =>
      if bool_decide (Answer.rrset answer = None) && raise_on_no_answer self
      then raise (NoAnswer (Answer.response answer))
      else mret (None, Some answer)
    | None =>
      self ← gets fst;
      let request := build_request self qname in
      let nameservers := Resolver.nameservers (resolver self) in
      let nameservers := if Resolver.rotate (resolver self)
                         then shuffle env nameservers else nameservers in
      assign (set_nameservers nameservers);;
      assign (set_current_nameservers nameservers);;
      assign (set_errors []);;
      assign (set_nameserver None);;
      assign (set_tcp_attempt false);;
      assign (set_retry_with_tcp false);;
      assign (set_request (Some request));;
      assign (set_backoff 0.10%Q);;
      mret (Some request, None)
    end
  end.

(** [next_nameserver(self)] *)
Definition next_nameserver : M (t * clock) ns_tuple :=
  self ← gets fst;
  if retry_with_tcp self then
    match nameserver self with
    | None => raise AssertionError
    | Some _ =>
      assign (set_tcp_attempt true);;
      assign (set_retry_with_tcp false);;
      mret (Tuple3 (nameserver self) (port self) true)
    end
  else
    backoff ←
      match current_nameservers self with
      | [] =>
        match nameservers self with
        | [] => raise (NoNameservers (request self) (errors self))
        | _ :: _ =>
          assign (set_current_nameservers (nameservers self));;
          assign (set_backoff (Qmin (_Resolution.backoff self * 2) 2));;
          mret (_Resolution.backoff self)
        end
      | _ :: _ => mret 0%Q
      end;
    self ← gets fst;
    match current_nameservers self with
    | [] => raise IndexError
    | ns0 :: rest =>
      let ns := List.last (current_nameservers self) ns0 in
      assign (set_current_nameservers (removelast (current_nameservers self)));;
      assign (set_nameserver (Some ns));;
      let port := default (Resolver.port (resolver self))
                          (Resolver.nameserver_ports (resolver self) !! ns) in
      assign (set_port port);;
      assign (set_tcp_attempt (tcp self));;
      mret (Tuple4 (Some ns) port (tcp self) backoff)
    end.

(** [self.nameservers.remove(self.nameserver)] *)
Definition remove_nameserver : M (t * clock) unit :=
  self ← gets fst;
  match list_remove (nameserver self) (nameservers self) with
  | Ok l => assign (set_nameservers l)
  | Raise e => raise e
  end.

(** [self.errors.append((self.nameserver, self.tcp_attempt, self.port,
    error, response))] *)
Definition log_error (error : error_obj) (response : option Message)
  : M (t * clock) unit :=
  self ← gets fst;
  assign (set_errors (errors self ++ [ErrorEntry (nameserver self)
                                        (tcp_attempt self) (port self)
                                        error response])).

(** [query_result(self, response, ex)]; the result is the tuple
    [(answer, end_loop)].  Every exception object is true, so [if ex]
    asks whether an exception was given. *)
Definition query_result (env : Env) (response : option Message) (ex : option exn)
  : M (t * clock) (option Answer.t * bool) :=
  match ex with
  | Some ex =>
    match response with
    | Some _ => raise AssertionError
    | None =>
      log_error (ErrExn ex) response;;
      match ex with
      | FormError | EOFError | NotImplementedError => remove_nameserver
      | Truncated =>
        self ← gets fst;
        if tcp_attempt self then remove_nameserver
        else assign (set_retry_with_tcp true)
      | _ => mret tt
      end;;
      mret (None, false)
    end
  | None =>
    match response with
    | None => raise AssertionError
    | Some response =>
      self ← gets fst;
      let rcode := msg_rcode response in
      if (rcode =? rcode.NOERROR)%Z then
        answer ← zoom snd (fun w s => (s.1, w))
                   (Answer.__init__ (qname self) (rdtype self) (rdclass self)
                      response (raise_on_no_answer self) (nameserver self)
                      (Some (port self)));
        match Resolver.cache (resolver self) with
        | Some c =>
          on_cache c (cache_put (qname self, rdtype self, rdclass self) answer)
        | None => mret tt
        end;;
        mret (Some answer, true)
      else if (rcode =? rcode.NXDOMAIN)%Z then
        assign (set_nxdomain_responses
                  (<[qname self := response]> (nxdomain_responses self)));;
        mret (None, true)
      else if (rcode =? rcode.YXDOMAIN)%Z then
        log_error (ErrExn YXDOMAIN) (Some response);;
        raise YXDOMAIN
      else
        (if negb (rcode =? rcode.SERVFAIL)%Z
            || negb (Resolver.retry_servfail (resolver self))
         then remove_nameserver else mret tt);;
        log_error (ErrText (rcode_to_text env rcode)) (Some response);;
        mret (None, false)
    end
  end.
End _Resolution.

(** ** The driver loop of [Resolver.resolve] *)

(** [try: m except Exception as ex: h ex] *)
Definition catch {S A} (m : M S A) (h : exn -> M S A) : M S A :=
  fun s => match m s with
           | (Ok a, s') => (Ok a, s')
           | (Raise e, s') => h e s'
           end.

(** [(nameserver, port, tcp, backoff) = resolution.next_nameserver()]:
    unpacking a tuple of another length raises [ValueError]. *)
Definition unpack4 (tup : ns_tuple) : outcome (option string * Z * bool * Q) :=
  match tup with
  | Tuple4 nameserver port tcp backoff => Ok (nameserver, port, tcp, backoff)
  | Tuple3 _ _ _ => Raise ValueError
  end.

(** What the first statement of the [try] block does. *)
Inductive dispatched :=
| Received (response : Message)
| Failed (ex : exn)
| Skip
| Nothing.

Definition dispatch (env : Env) (attempt : nat) (request : option Message)
           (nameserver : option string) (port : Z) (tcp : bool) (timeout : Q)
           (source : option string) (source_port : Z) : dispatched :=
  if is_address env nameserver then
    match (if tcp
           then query_tcp env attempt request nameserver timeout port source
                          source_port
           else query_udp env attempt request nameserver timeout port source
                          source_port) with
    | Ok response => Received response
    | Raise ex => Failed ex
    end
  else
    let protocol := scheme env nameserver in
    if bool_decide (protocol = "https") then
      match query_https env attempt request nameserver timeout with
      | Ok response => Received response
      | Raise ex => Failed ex
      end
    else if negb (bool_decide (protocol = "")) then Skip
    else Nothing.

(** [if answer: return answer]: an [Answer] is true when its [__len__] is
    not zero; the result is the answer to return, if any. *)
Definition returned (answer : option Answer.t) : option Answer.t :=
  match answer with
  | Some a => if (0 <? Answer.__len__ a)%nat then Some a else None
  | None => None
  end.

(** The two nested loops, with [fuel] loop turns left.  [request] is
    [None] at the head of [while True] and holds the request inside
    [while not done]; [response] is the local variable of that name
    ([None] while unbound); [attempt] counts the transport calls.
    [time.sleep(backoff)] changes nothing here: the clock readings are
    arbitrary. *)
Fixpoint drive (fuel : nat) (env : Env) (start : Q) (lifetime : option Q)
         (source : option string) (source_port : Z)
         (request : option (option Message)) (response : option Message)
         (attempt : nat) : M (_Resolution.t * clock) Answer.t :=
  match fuel with
  | O => raise (SystemError "out of fuel")
  | S fuel =>
    let again := drive fuel env start lifetime source source_port in
    match request with
    | None =>
      ra ← _Resolution.next_request env;
      match returned ra.2 with
      | Some answer => mret answer
      | None => again (Some ra.1) response attempt
      end
    | Some request =>
      tup ← _Resolution.next_nameserver;
      match unpack4 tup with
      | Raise e => raise e
      | Ok (nameserver, port, tcp, backoff) =>
        self ← gets fst;
        timeout ← zoom snd (fun w s => (s.1, w))
                    (Resolver._compute_timeout (_Resolution.resolver self)
                                               start lifetime);
        let handler ex :=
          ad ← _Resolution.query_result env None (Some ex);
          mret (None, ad.2) in
        let report response :=
          catch (_Resolution.query_result env (Some response) None) handler in
        let next (done : bool) := if done then None else Some request in
        match dispatch env attempt request nameserver port tcp timeout
                       source source_port with
        | Skip => again (Some request) response attempt
        | Failed ex =>
          ad ← handler ex;
          again (next ad.2) response (S attempt)
        | Received response =>
          ad ← report response;
          match returned ad.1 with
          | Some answer => mret answer
          | None => again (next ad.2) (Some response) (S attempt)
          end
        | Nothing =>
          ad ← match response with
               | Some r => report r
               | None => handler UnboundLocalError
               end;
          match returned ad.1 with
          | Some answer => mret answer
          | None => again (next ad.2) response attempt
          end
        end
      end
    end
  end.

(** [resolve(self, qname, rdtype, rdclass, tcp, source,
    raise_on_no_answer, source_port, lifetime, search)], for arguments
    already converted from text.  The state is the resolver (whose cache
    the call may change) and the clock. *)
Definition resolve (fuel : nat) (env : Env) (qname : Name.t) (rdtype rdclass : Z)
           (tcp : bool) (source : option string) (raise_on_no_answer : bool)
           (source_port : Z) (lifetime : option Q) (search : option bool)
  : M (Resolver.t * clock) Answer.t :=
  fun s =>
    match _Resolution.__init__ env s.1 qname rdtype rdclass tcp
                               raise_on_no_answer search with
    | Raise e => (Raise e, s)
    | Ok resolution =>
      let '(start, w) := time_time s.2 in
      let '(r, (resolution, w)) :=
        drive fuel env start lifetime source source_port None None 0
              (resolution, w) in
      (r, (_Resolution.resolver resolution, w))
    end.

(** * Specifications

    The definitions below are not part of the program: they are what the
    theorems compare the program with, and the concrete inputs at which
    the theorems are instantiated. *)

(** The entries of [l] that are not in [seen], each of them once, in the
    order of their first occurrence in [l]. *)
Fixpoint novel (seen l : list Name.t) : list Name.t :=
  match l with
  | [] => []
  | x :: l => if decide (x ∈ seen) then novel seen l
              else x :: novel (seen ++ [x]) l
  end.

(** The value [search] stands for in [_get_qnames_to_try]. *)
Definition search_enabled (self : Resolver.t) (search : option bool) : bool :=
  default (Resolver.use_search_by_default self) search.

(** Names used in the examples. *)
Definition host : Name.t := Name.mk ["host"] false.
Definition host_www : Name.t := Name.mk ["www"; "host"] false.
Definition corp_example : Name.t := Name.mk ["corp"; "example"] true.
Definition example : Name.t := Name.mk ["example"] true.
Definition host_corp_example : Name.t := Name.mk ["host"; "corp"; "example"] true.
Definition host_example : Name.t := Name.mk ["host"; "example"] true.
Definition host_root : Name.t := Name.mk ["host"] true.

(** A response to [request] that carries nothing but [rcode]. *)
Definition reply (rcode : Z) (request : option Message) : Message :=
  mkMessage (match request with
             | Some m => question m
             | None => (Name.empty, 0%Z, 0%Z)
             end) None None (-1, 0, 0)%Z rcode [] [].

(** Two [NXDOMAIN] values: the second knows a response for a name that is
    not among its qnames. *)
Definition nx_a : NXDOMAIN.t := mkKwargs (Some [host_example]) (Some ∅).
Definition nx_b : NXDOMAIN.t :=
  mkKwargs (Some [host_corp_example])
           (Some {[ host_root := reply rcode.NXDOMAIN None ]}).

(** Resolvers used in the examples: port 53, no cache, and the given
    nameservers, search list, default for [search] and [ndots]. *)
Definition resolver_with (nameservers : list string) (search : list Name.t)
           (use_search_by_default : bool) (ndots : option Z) : Resolver.t :=
  Resolver.mk example nameservers ∅ 53 search use_search_by_default 2 30
              None None "hmac-md5" (-1) 0 0 None None false false ndots.

(** Collaborators used in the examples: every nameserver is an address,
    nothing is a metaquery, nameservers are kept in order, and the three
    transports behave as given. *)
Definition env_with
           (udp tcp : option Message -> outcome Message) : Env :=
  mkEnv (fun _ => false) (fun _ => false) (fun _ => true) (fun _ => "")
        (fun _ => "RCODE") (fun l => l)
        (fun _ request _ _ _ _ _ => udp request)
        (fun _ request _ _ _ _ _ => tcp request)
        (fun _ request _ _ => tcp request).

(** A clock that stands still. *)
Definition frozen_clock : clock := mkClock (fun _ => 0%Q) 0.

(** The errors after which [query_result] takes the nameserver out of the
    pool: a wire-format error, a short read, a not-implemented condition,
    or a truncated answer to a TCP attempt. *)
Definition drops_nameserver (ex : exn) (tcp_attempt : bool) : Prop :=
  ex = FormError \/ ex = EOFError \/ ex = NotImplementedError
  \/ (ex = Truncated /\ tcp_attempt = true).

(** A resolution in the middle of a UDP attempt at ["10.0.0.1"], and the
    same after a truncated answer was reported. *)
Definition resolution_in_flight : _Resolution.t :=
  _Resolution.mk (resolver_with ["10.0.0.1"] [] false None)
                 [host_root] [] rdatatype.A rdataclass.IN false true ∅
                 host_root ["10.0.0.1"] [] [] (Some "10.0.0.1") 53 false false
                 (Some (make_query host_root rdatatype.A rdataclass.IN)) 0.10.

Definition resolution_truncated : _Resolution.t :=
  _Resolution.set_retry_with_tcp true
    (_Resolution.set_errors
       [ErrorEntry (Some "10.0.0.1") false 53 (ErrExn Truncated) None]
       resolution_in_flight).

(** The response holds nothing from which [Answer.__init__] could take a
    TTL: no rrset of the wanted type and no CNAME at [qname] in the answer
    section, and no SOA at [qname] or at a superdomain of it in the
    authority section. *)
Definition nothing_found (qname : Name.t) (rdtype rdclass : Z)
           (response : Message) : Prop :=
  find_rrset (answer response) qname rdclass rdtype = None
  /\ (rdtype = rdatatype.CNAME
      \/ find_rrset (answer response) qname rdclass rdatatype.CNAME = None)
  /\ forall labels,
       labels `suffix_of` Name.labels qname ->
       find_rrset (authority response) (Name.mk labels (Name.absolute qname))
                  rdclass rdatatype.SOA = None.

(** TTLs and SOA minimums are unsigned on the wire. *)
Definition ttls_nonnegative (response : Message) : Prop :=
  (forall rr, rr ∈ answer response ++ authority response -> (0 <= ttl rr)%Z)
  /\ (forall rr m, rr ∈ authority response -> RdSOA m ∈ items rr -> (0 <= m)%Z).

(** A clock that shows [t] at every reading. *)
Definition clock_at (t : Q) : clock := mkClock (fun _ => t) 0.

(** A NOERROR response with one A rrset for [host.], TTL 60. *)
Definition a_rrset : RRset :=
  mkRRset host_root rdataclass.IN rdatatype.A 60 [RdOther "1.2.3.4"].

Definition a_response : Message :=
  mkMessage (host_root, rdatatype.A, rdataclass.IN) None None (-1, 0, 0)%Z
            rcode.NOERROR [a_rrset] [].

(** ** The recency list of the LRU cache *)

(** The four attributes of the node object at an address. *)
Definition fnext (h : LRUCacheNode.store) (a : addr) : option addr :=
  LRUCacheNode.next <$> h !! a.
Definition fprev (h : LRUCacheNode.store) (a : addr) : option addr :=
  LRUCacheNode.prev <$> h !! a.
Definition fkey (h : LRUCacheNode.store) (a : addr) : option (option CacheKey) :=
  LRUCacheNode.key <$> h !! a.
Definition fvalue (h : LRUCacheNode.store) (a : addr) : option (option Answer.t) :=
  LRUCacheNode.value <$> h !! a.

(** What an assignment to one pointer of the node at [a] changes. *)
Definition assigns_prev (h : LRUCacheNode.store) (a v : addr)
           (h' : LRUCacheNode.store) : Prop :=
  (forall b, fnext h' b = fnext h b)
  /\ (forall b, fprev h' b = if decide (b = a) then Some v else fprev h b)
  /\ (forall b, fkey h' b = fkey h b)
  /\ (forall b, fvalue h' b = fvalue h b).

Definition assigns_next (h : LRUCacheNode.store) (a v : addr)
           (h' : LRUCacheNode.store) : Prop :=
  (forall b, fnext h' b = if decide (b = a) then Some v else fnext h b)
  /\ (forall b, fprev h' b = fprev h b)
  /\ (forall b, fkey h' b = fkey h b)
  /\ (forall b, fvalue h' b = fvalue h b).

(** The pairs of neighbours along a path of addresses. *)
Fixpoint adjacent (path : list addr) : list (addr * addr) :=
  match path with
  | x :: rest =>
    match rest with
    | y :: _ => (x, y) :: adjacent rest
    | [] => []
    end
  | [] => []
  end.

(** Along [path], [next] leads forwards and [prev] backwards. *)
Definition linked (h : LRUCacheNode.store) (path : list addr) : Prop :=
  forall x y, (x, y) ∈ adjacent path -> fnext h x = Some y /\ fprev h y = Some x.

(** The node objects in [h] hold the entries [l], most recently used
    first: each entry is a key with the address of its node, and the nodes
    form a circle through the sentinel [s] in that order. *)
Record lru_shape (s : addr) (h : LRUCacheNode.store)
       (l : list (CacheKey * addr)) : Prop := mk_lru_shape {
  shape_keys : NoDup l.*1;
  shape_addrs : NoDup (s :: l.*2);
  shape_linked : linked h (s :: l.*2 ++ [s]);
  shape_nodes : forall k a, (k, a) ∈ l ->
                  fkey h a = Some (Some k)
                  /\ exists v, fvalue h a = Some (Some v)
}.

(** The cache [c] holds the entries [l]: its nodes have that shape,
    [data] maps each key to its node, and the number of entries is within
    [max_size]. *)
Record lru_inv (c : LRUCache.t) (l : list (CacheKey * addr)) : Prop := mk_lru_inv {
  inv_shape : lru_shape (LRUCache.sentinel c) (LRUCache.nodes c) l;
  inv_data : LRUCache.data c = list_to_map l;
  inv_fresh : forall a, a ∈ LRUCache.sentinel c :: l.*2 -> a < LRUCache.next_id c;
  inv_max_size : (1 <= LRUCache.max_size c)%Z;
  inv_size : (Z.of_nat (length l) <= LRUCache.max_size c)%Z
}.

(** The operations of a client of the LRU cache, and a run of them. *)
Inductive lru_op :=
| LruGet (key : CacheKey)
| LruPut (key : CacheKey) (value : Answer.t).

Definition lru_key (op : lru_op) : CacheKey :=
  match op with
  | LruGet key => key
  | LruPut key _ => key
  end.

Definition lru_step (op : lru_op) : M (LRUCache.t * clock) unit :=
  match op with
  | LruGet key => LRUCache.get key;; mret tt
  | LruPut key value => with_clock (LRUCache.put key value)
  end.

Fixpoint lru_run (ops : list lru_op) : M (LRUCache.t * clock) unit :=
  match ops with
  | [] => mret tt
  | op :: ops => lru_step op;; lru_run ops
  end.

(** The position, in a run, of the last [get] or [put] of [key]. *)
Fixpoint last_use_rev (rops : list lru_op) (key : CacheKey) : option nat :=
  match rops with
  | [] => None
  | op :: rest => if decide (lru_key op = key) then Some (length rest)
                  else last_use_rev rest key
  end.

Definition last_use (ops : list lru_op) (key : CacheKey) : option nat :=
  last_use_rev (rev ops) key.

(** [k1] was last used after [k2]. *)
Definition later (ops : list lru_op) (k1 k2 : CacheKey) : Prop :=
  exists t1 t2, last_use ops k1 = Some t1 /\ last_use ops k2 = Some t2 /\ t2 < t1.

(** Keys and answers used in the examples. *)
Definition key_of (label : string) : CacheKey :=
  (Name.mk [label] true, rdatatype.A, rdataclass.IN).

Definition answer_until (expiration : Q) : Answer.t :=
  Answer.mk host_root rdatatype.A rdataclass.IN a_response (Some "10.0.0.1")
            (Some 53%Z) host_root (Some a_rrset) expiration.

(** The entries of [l] without the one for [key]. *)
Definition drop_key (key : CacheKey) (l : list (CacheKey * addr))
  : list (CacheKey * addr) :=
  filter (fun e => e.1 <> key) l.

(** The entries left by the eviction loop of [put]: the last one goes when
    the cache is full. *)
Definition make_room (max_size : Z) (l : list (CacheKey * addr))
  : list (CacheKey * addr) :=
  if (Z.of_nat (length l) >=? max_size)%Z then removelast l else l.

(** The recency list is ordered by last use: every key in it was used in
    the run, and after all the keys that follow it. *)
Definition recency (ops : list lru_op) (l : list (CacheKey * addr)) : Prop :=
  StronglySorted (later ops) l.*1
  /\ forall k, k ∈ l.*1 -> is_Some (last_use ops k).

(** A run on a cache of capacity two: [a] and [b] are stored, then [a] is
    read; the cache is full and [b] is the least recently used. *)
Definition lru_example_ops : list lru_op :=
  [LruPut (key_of "a") (answer_until 100);
   LruPut (key_of "b") (answer_until 100);
   LruGet (key_of "a")].

Definition lru_example : LRUCache.t :=
  ((lru_run lru_example_ops (LRUCache.__init__ 2, clock_at 0)).2).1.

(** A simple cache with one entry for [a] that expires at 100, cleaned
    next at 300; and a clock that shows 200, then 201, 202, ... *)
Definition cache_example : Cache.t :=
  Cache.mk {[ key_of "a" := answer_until 100 ]} 300 300.

Definition clock_from (t : Z) : clock :=
  mkClock (fun n => inject_Z (t + Z.of_nat n)) 0.

(** An LRU cache of capacity two that holds [a] and [b], both expiring
    at 100. *)
Definition lru_two : LRUCache.t :=
  ((lru_run [LruPut (key_of "a") (answer_until 100);
             LruPut (key_of "b") (answer_until 100)]
            (LRUCache.__init__ 2, clock_at 0)).2).1.

(** A transport reply that records, in its flags, how many transport
    calls came before it. *)
Definition stamped_reply (rcode : Z) (attempt : nat) (request : option Message)
  : Message :=
  set_flags (Z.of_nat attempt) (reply rcode request).

(** Collaborators whose transports answer every query with NXDOMAIN. *)
Definition env_nxdomain : Env :=
  mkEnv (fun _ => false) (fun _ => false) (fun _ => true) (fun _ => "")
        (fun _ => "RCODE") (fun l => l)
        (fun attempt request _ _ _ _ _ =>
           Ok (stamped_reply rcode.NXDOMAIN attempt request))
        (fun attempt request _ _ _ _ _ =>
           Ok (stamped_reply rcode.NXDOMAIN attempt request))
        (fun attempt request _ _ =>
           Ok (stamped_reply rcode.NXDOMAIN attempt request)).

(** The resolver of the search-list scenario. *)
Definition resolver_search : Resolver.t :=
  resolver_with ["10.0.0.1"] [corp_example; example] false (Some 1%Z).

(** * Properties *)

Set Warnings "-clear-no-such-hyp".

(** ** NXDOMAIN merging *)

Lemma add_step_fold (responses1 : gmap Name.t Message) qb :
  forall qs (rs : gmap Name.t Message),
  fold_left (NXDOMAIN.add_step responses1) qb (qs, rs)
  = (qs ++ novel qs qb,
     fold_left (fun (rs : gmap Name.t Message) q =>
                  match responses1 !! q with
                            | Some r => <[q := r]> rs
                            | None => rs
                            end) qb rs).
Proof.
  induction qb as [|x qb IH]; intros qs rs; simpl.
  - by rewrite app_nil_r.
  - destruct (decide (x ∈ qs)); rewrite IH; [done|].
    by rewrite <- app_assoc.
Qed.

Lemma merged_lookup (responses1 : gmap Name.t Message) qb :
  forall (rs : gmap Name.t Message) q,
  fold_left (fun (rs : gmap Name.t Message) q =>
               match responses1 !! q with
                         | Some r => <[q := r]> rs
                         | None => rs
                         end) qb rs !! q
  = if decide (q ∈ qb)
    then match responses1 !! q with
         | Some r => Some r
         | None => rs !! q
         end
    else rs !! q.
Proof.
  induction qb as [|x qb IH]; intros rs q; simpl; [done|].
  rewrite IH.
  destruct (decide (q ∈ x :: qb)) as [Hin|Hnin];
    destruct (decide (q ∈ qb)) as [Hin'|Hnin'];
    try (exfalso; apply Hnin; by right).
  - destruct (responses1 !! q) eqn:Eq; [done|].
    destruct (decide (q = x)) as [->|Hne].
    + by rewrite Eq.
    + by destruct (responses1 !! x); [rewrite lookup_insert_ne|].
  - apply elem_of_cons in Hin as [->|?]; [|done].
    by destruct (responses1 !! x); [rewrite lookup_insert_eq|].
  - assert (q <> x) by (intros ->; apply Hnin; by left).
    by destruct (responses1 !! x); [rewrite lookup_insert_ne|].
Qed.

Lemma novel_elem_of qb : forall qa x,
  x ∈ novel qa qb <-> x ∈ qb /\ x ∉ qa.
Proof.
  induction qb as [|y qb IH]; intros qa x; simpl.
  - rewrite elem_of_nil. tauto.
  - destruct (decide (y ∈ qa)) as [Hy|Hy].
    + rewrite IH, elem_of_cons. split; [tauto|].
      intros [[->|?] ?]; tauto.
    + rewrite !elem_of_cons, IH, elem_of_app, list_elem_of_singleton.
      split.
      * intros [->|[? ?]]; tauto.
      * intros [[->|?] ?]; [tauto|].
        destruct (decide (x = y)); tauto.
Qed.

Lemma novel_NoDup qb : forall qa, NoDup (novel qa qb).
Proof.
  induction qb as [|y qb IH]; intros qa; simpl; [constructor|].
  destruct (decide (y ∈ qa)); [apply IH|].
  constructor; [|apply IH].
  rewrite novel_elem_of, elem_of_app, list_elem_of_singleton. tauto.
Qed.

Lemma novel_sublist qb : forall qa, novel qa qb `sublist_of` qb.
Proof.
  induction qb as [|y qb IH]; intros qa; simpl; [constructor|].
  destruct (decide (y ∈ qa)).
  - by apply sublist_cons.
  - by apply sublist_skip.
Qed.

Lemma NXDOMAIN_init_inv qnames responses a :
  NXDOMAIN.__init__ qnames responses = Ok a ->
  qnames <> [] /\ a = mkKwargs (Some qnames) (Some (default ∅ responses)).
Proof.
  unfold NXDOMAIN.__init__, NXDOMAIN._check_kwargs.
  destruct qnames; simpl; [discriminate|].
  intros [= <-]. split; [done|]. by destruct responses.
Qed.

Lemma NXDOMAIN_init_nonempty qnames responses :
  qnames <> [] ->
  NXDOMAIN.__init__ qnames responses
  = Ok (mkKwargs (Some qnames) (Some (default ∅ responses))).
Proof.
  unfold NXDOMAIN.__init__, NXDOMAIN._check_kwargs.
  destruct qnames; [done|]. intros _. simpl. by destruct responses.
Qed.

(** C6, as the code has it.  For two [NXDOMAIN] values [a] and [b] built
    by the constructor, [a + b] is an [NXDOMAIN] whose qnames are those of
    [a] followed by the entries of [b.qnames()] not already present (each
    once, in [b]'s order), and whose response for [q] is [b]'s when [q] is
    one of [b]'s qnames and [b] has a response for it, and [a]'s in every
    other case (a [KeyError] when [a] has none). *)
Theorem NXDOMAIN_add_merge (qa qb : list Name.t)
        (ra rb : option (gmap Name.t Message)) (a b : NXDOMAIN.t) :
  NXDOMAIN.__init__ qa ra = Ok a ->
  NXDOMAIN.__init__ qb rb = Ok b ->
  exists c,
    NXDOMAIN.__add__ a b = Ok c
    /\ NXDOMAIN.qnames a = Ok qa
    /\ NXDOMAIN.qnames b = Ok qb
    /\ NXDOMAIN.qnames c = Ok (qa ++ novel qa qb)
    /\ (forall x, x ∈ novel qa qb <-> x ∈ qb /\ x ∉ qa)
    /\ NoDup (novel qa qb)
    /\ novel qa qb `sublist_of` qb
    /\ forall q,
         NXDOMAIN.response c q
         = if decide (q ∈ qb)
           then match NXDOMAIN.response b q with
                | Ok r => Ok r
                | Raise _ => NXDOMAIN.response a q
                end
           else NXDOMAIN.response a q.
Proof.
  intros [Ha ->]%NXDOMAIN_init_inv [Hb ->]%NXDOMAIN_init_inv.
  unfold NXDOMAIN.__add__. cbn [kw_qnames kw_responses default].
  rewrite add_step_fold, NXDOMAIN_init_nonempty
    by (destruct qa; [done|discriminate]).
  eexists. split; [reflexivity|].
  split; [done|]. split; [done|]. split; [done|].
  split; [apply novel_elem_of|]. split; [apply novel_NoDup|].
  split; [apply novel_sublist|].
  intros q. unfold NXDOMAIN.response. cbn [kw_responses default].
  unfold id. rewrite merged_lookup.
  destruct (decide (q ∈ qb)); [|done].
  by destruct (_ !! q).
Qed.

Lemma NXDOMAIN_add_merge_witness :
  exists c, NXDOMAIN.__add__ nx_a nx_b = Ok c
            /\ NXDOMAIN.qnames c = Ok [host_example; host_corp_example].
Proof.
  destruct (NXDOMAIN_add_merge [host_example] [host_corp_example]
              (Some ∅) (Some {[ host_root := reply rcode.NXDOMAIN None ]})
              nx_a nx_b eq_refl eq_refl)
    as (c & Hc & _ & _ & Hq & _).
  exists c. split; [exact Hc|exact Hq].
Defined.

(** C6 as stated fails: [nx_b] has a response for [host.], which is not
    one of its qnames, and the sum has none. *)
Lemma NXDOMAIN_add_response_counterexample :
  NXDOMAIN.response nx_b host_root = Ok (reply rcode.NXDOMAIN None)
  /\ (exists c, NXDOMAIN.__add__ nx_a nx_b = Ok c
                /\ NXDOMAIN.response c host_root = Raise KeyError).
Proof.
  split; [reflexivity|].
  eexists. split; reflexivity.
Qed.

(** ** Candidate names *)

Lemma search_fold (qname : Name.t) (search : list Name.t) : forall acc,
  fold_left (fun acc suffix => acc ++ [Name.concatenate qname suffix]) search acc
  = acc ++ map (Name.concatenate qname) search.
Proof.
  induction search as [|s search IH]; intros acc; simpl.
  - by rewrite app_nil_r.
  - by rewrite IH, <- app_assoc.
Qed.

Lemma search_fold_skip (search : list Name.t) : forall acc,
  fold_left (fun (acc : list Name.t) (suffix : Name.t) => acc) search acc = acc.
Proof. induction search; intros; simpl; auto. Qed.

(** C5.  The candidate list of [_get_qnames_to_try]: [[qname]] for an
    absolute name; without search, [qname+root] (when there is more than
    one label) and then [qname+domain]; with search, a non-empty search
    list and [ndots] unset or reached, [qname+root] (when there is more
    than one label) and then [qname+suffix] for each suffix in the order of
    the search list. *)
Theorem get_qnames_to_try_cases (self : Resolver.t) (qname : Name.t)
        (search : option bool) :
  (Name.is_absolute qname = true ->
   Resolver._get_qnames_to_try self qname search = [qname])
  /\ (Name.is_absolute qname = false ->
      search_enabled self search = false ->
      1 < Name.len qname ->
      Resolver._get_qnames_to_try self qname search
      = [Name.concatenate qname Name.root;
         Name.concatenate qname (Resolver.domain self)])
  /\ (Name.is_absolute qname = false ->
      search_enabled self search = false ->
      Name.len qname = 1 ->
      Resolver._get_qnames_to_try self qname search
      = [Name.concatenate qname (Resolver.domain self)])
  /\ (Name.is_absolute qname = false ->
      search_enabled self search = true ->
      Resolver.search self <> [] ->
      (Resolver.ndots self = None
       \/ exists n, Resolver.ndots self = Some n
                    /\ (n <= Z.of_nat (Name.len qname))%Z) ->
      Resolver._get_qnames_to_try self qname search
      = (if decide (1 < Name.len qname)
         then [Name.concatenate qname Name.root] else [])
        ++ map (Name.concatenate qname) (Resolver.search self)).
Proof.
  unfold Resolver._get_qnames_to_try, search_enabled.
  repeat split.
  - by intros ->.
  - intros -> Hs Hlen.
    replace (match search with Some b => b | None => _ end) with false
      by (by destruct search).
    simpl. by destruct (Nat.ltb_spec 1 (Name.len qname)); [|lia].
  - intros -> Hs Hlen.
    replace (match search with Some b => b | None => _ end) with false
      by (by destruct search).
    simpl. by rewrite Hlen.
  - intros -> Hs Hne Hndots.
    replace (match search with Some b => b | None => _ end) with true
      by (by destruct search).
    rewrite bool_decide_eq_false_2 by done. simpl.
    assert (Resolver.ndots_ok self qname = true) as ->.
    { unfold Resolver.ndots_ok, Name.len in *.
      destruct Hndots as [->|(n & -> & Hn)]; [done|]. lia. }
    rewrite search_fold.
    destruct (Nat.ltb_spec 1 (Name.len qname));
      [by rewrite decide_True|by rewrite decide_False by lia].
Qed.

Lemma get_qnames_to_try_cases_witness :
  Resolver._get_qnames_to_try
    (resolver_with ["10.0.0.1"] [corp_example; example] false (Some 1%Z))
    host_www (Some true)
  = [Name.mk ["www"; "host"] true;
     Name.mk ["www"; "host"; "corp"; "example"] true;
     Name.mk ["www"; "host"; "example"] true].
Proof.
  apply (proj2 (proj2 (proj2 (get_qnames_to_try_cases
           (resolver_with ["10.0.0.1"] [corp_example; example] false (Some 1%Z))
           host_www (Some true))))).
  - reflexivity.
  - reflexivity.
  - discriminate.
  - right. exists 1%Z. split; [reflexivity|]. vm_compute. discriminate.
Defined.

(** C9.  A relative name of one label, with search enabled, a non-empty
    search list and [ndots] above one, has no candidate at all; the first
    [next_request] then fails in the [NXDOMAIN] constructor with the
    [AttributeError] of [_check_kwargs], and so does [resolve]. *)
Theorem single_label_high_ndots (env : Env) (self : Resolver.t) (qname : Name.t)
        (rdtype rdclass : Z) (tcp raise_on_no_answer : bool)
        (source : option string) (source_port : Z) (lifetime : option Q)
        (search : option bool) (n : Z) (w : clock) (fuel : nat) :
  Name.is_absolute qname = false ->
  Name.len qname = 1 ->
  search_enabled self search = true ->
  Resolver.search self <> [] ->
  Resolver.ndots self = Some n ->
  (1 < n)%Z ->
  is_metatype env rdtype = false ->
  is_metaclass env rdclass = false ->
  Resolver._get_qnames_to_try self qname search = []
  /\ (exists resolution,
        _Resolution.__init__ env self qname rdtype rdclass tcp
                             raise_on_no_answer search = Ok resolution
        /\ _Resolution.next_request env (resolution, w)
           = (Raise (AttributeError "qnames must contain at least one element"),
              (resolution, w)))
  /\ (resolve (S fuel) env qname rdtype rdclass tcp source raise_on_no_answer
              source_port lifetime search (self, w)).1
     = Raise (AttributeError "qnames must contain at least one element").
Proof.
  intros Habs Hlen Hs Hne Hn Hgt Hmt Hmc.
  assert (Resolver._get_qnames_to_try self qname search = []) as Hq.
  { unfold Resolver._get_qnames_to_try, search_enabled in *.
    rewrite Habs, Hlen. simpl.
    replace (match search with Some b => b | None => _ end) with true
      by (by destruct search).
    rewrite bool_decide_eq_false_2 by done. simpl.
    assert (Resolver.ndots_ok self qname = false) as ->.
    { unfold Resolver.ndots_ok, Name.len in *. rewrite Hn, Hlen.
      rewrite Z.geb_leb. apply Z.leb_gt. lia. }
    apply search_fold_skip. }
  split; [exact Hq|].
  unfold resolve, _Resolution.__init__. cbn [fst snd].
  rewrite Hmt, Hmc, Hq. split.
  - eexists. split; [reflexivity|]. reflexivity.
  - reflexivity.
Qed.

Lemma single_label_high_ndots_witness :
  (resolve 1 (env_with (fun r => Ok (reply rcode.NOERROR r))
                       (fun r => Ok (reply rcode.NOERROR r)))
           host rdatatype.A rdataclass.IN false None true 0 None (Some true)
           (resolver_with ["10.0.0.1"] [corp_example; example] false (Some 2%Z),
            frozen_clock)).1
  = Raise (AttributeError "qnames must contain at least one element").
Proof.
  apply (single_label_high_ndots _ _ _ _ _ _ _ _ _ _ _ 2%Z).
  all: try reflexivity.
  discriminate.
Defined.

(** ** The resolution state machine *)

(** Split a conjunction into its parts, without touching implications. *)
Ltac splits := repeat match goal with |- _ /\ _ => split end.

Lemma remove_first_length x l :
  x ∈ l -> S (length (remove_first x l)) = length l.
Proof.
  induction l as [|y l IH]; simpl; [by intros ?%elem_of_nil|].
  intros Hin. destruct (decide (x = y)); [done|].
  apply elem_of_cons in Hin as [?|Hin]; [done|].
  simpl. by rewrite IH.
Qed.

Lemma remove_first_NoDup x l : NoDup l -> x ∉ remove_first x l.
Proof.
  induction 1 as [|y l Hy Hl IH]; simpl; [apply not_elem_of_nil|].
  destruct (decide (x = y)) as [->|Hne]; [done|].
  rewrite elem_of_cons. tauto.
Qed.

(** C7.  [query_result(None, ex)] appends
    [(nameserver, tcp_attempt, port, ex, None)] to [errors] and returns
    [(None, False)].  After a wire-format error, a short read, a
    not-implemented condition or a truncated TCP answer the current
    nameserver is removed from [nameservers]; after a truncated UDP answer
    [retry_with_tcp] is set and the pool is kept; any other error leaves
    both as they were.  The removal needs the current nameserver to be in
    the pool, as it is when the driver loop reports an attempt. *)
Theorem query_result_error (env : Env) (ex : exn) (st : _Resolution.t)
        (w : clock) :
  (drops_nameserver ex (_Resolution.tcp_attempt st) ->
   exists ns, _Resolution.nameserver st = Some ns
              /\ ns ∈ _Resolution.nameservers st) ->
  exists st',
    _Resolution.query_result env None (Some ex) (st, w)
    = (Ok (None, false), (st', w))
    /\ _Resolution.errors st'
       = _Resolution.errors st
         ++ [ErrorEntry (_Resolution.nameserver st) (_Resolution.tcp_attempt st)
                        (_Resolution.port st) (ErrExn ex) None]
    /\ (drops_nameserver ex (_Resolution.tcp_attempt st) ->
        exists ns,
          _Resolution.nameserver st = Some ns
          /\ _Resolution.nameservers st'
             = remove_first ns (_Resolution.nameservers st)
          /\ S (length (_Resolution.nameservers st'))
             = length (_Resolution.nameservers st)
          /\ (NoDup (_Resolution.nameservers st) ->
              ns ∉ _Resolution.nameservers st')
          /\ _Resolution.retry_with_tcp st' = _Resolution.retry_with_tcp st)
    /\ (ex = Truncated -> _Resolution.tcp_attempt st = false ->
        _Resolution.retry_with_tcp st' = true
        /\ _Resolution.nameservers st' = _Resolution.nameservers st)
    /\ (~ drops_nameserver ex (_Resolution.tcp_attempt st) ->
        ex <> Truncated ->
        _Resolution.retry_with_tcp st' = _Resolution.retry_with_tcp st
        /\ _Resolution.nameservers st' = _Resolution.nameservers st)
    /\ _Resolution.nameserver st' = _Resolution.nameserver st
    /\ _Resolution.port st' = _Resolution.port st
    /\ _Resolution.tcp_attempt st' = _Resolution.tcp_attempt st
    /\ _Resolution.current_nameservers st' = _Resolution.current_nameservers st
    /\ _Resolution.qnames st' = _Resolution.qnames st
    /\ _Resolution.nxdomain_responses st' = _Resolution.nxdomain_responses st.
Proof.
  intros Hpool.
  assert (forall st0,
    _Resolution.nameserver st0 = _Resolution.nameserver st ->
    _Resolution.nameservers st0 = _Resolution.nameservers st ->
    drops_nameserver ex (_Resolution.tcp_attempt st) ->
    exists ns, _Resolution.nameserver st = Some ns
      /\ ns ∈ _Resolution.nameservers st
      /\ _Resolution.remove_nameserver (st0, w)
         = (Ok tt, (_Resolution.set_nameservers
                      (remove_first ns (_Resolution.nameservers st)) st0, w)))
    as Hremove.
  { intros st0 E1 E2 Hd. destruct (Hpool Hd) as (ns & Hns & Hin).
    exists ns. split; [done|]. split; [done|].
    unfold _Resolution.remove_nameserver, mbind, M_bind, gets,
      _Resolution.assign, modify, list_remove. cbn [fst snd].
    rewrite E1, E2, Hns. by rewrite decide_True. }
  unfold drops_nameserver in *.
  pose (logged := fun e => _Resolution.set_errors
          (_Resolution.errors st ++ [ErrorEntry (_Resolution.nameserver st)
             (_Resolution.tcp_attempt st) (_Resolution.port st) (ErrExn e) None])
          st).
  assert (ex = FormError \/ ex = EOFError \/ ex = NotImplementedError
          \/ ex = Truncated
          \/ (ex <> FormError /\ ex <> EOFError /\ ex <> NotImplementedError
              /\ ex <> Truncated
              /\ _Resolution.query_result env None (Some ex) (st, w)
                 = (Ok (None, false), (logged ex, w))))
    as [->|[->|[->|[->|(N1 & N2 & N3 & N4 & Hq)]]]].
  { destruct ex; try tauto; do 4 right; repeat split; done. }
  1-3: match goal with
       | |- context [Some ?e] =>
         edestruct (Hremove (logged e)) as (ns & Hns & Hin & Hr);
           [done|done|tauto|]
       end.
  1-3: unfold _Resolution.query_result, _Resolution.log_error, mbind, M_bind,
         gets, _Resolution.assign, modify, mret, M_ret, logged in *;
       cbn [fst snd] in *; rewrite Hr;
       eexists; (split; [reflexivity|]); cbn; splits; try done;
       try (intros; discriminate);
       try (intros _; exists ns; splits; try done;
            [by apply remove_first_length|intros; by apply remove_first_NoDup]);
       try (intros H; exfalso; apply H; tauto).
  - destruct (_Resolution.tcp_attempt st) eqn:Etcp.
    + edestruct (Hremove (logged Truncated)) as (ns & Hns & Hin & Hr);
        [done|done|tauto|].
      unfold _Resolution.query_result, _Resolution.log_error, mbind, M_bind,
        gets, _Resolution.assign, modify, mret, M_ret, logged in *.
      cbn [fst snd] in *. rewrite Etcp in *. cbn. rewrite Etcp.
      unfold mbind, M_bind in *. rewrite Hr.
      eexists; (split; [reflexivity|]); cbn.
      splits; try done.
      intros _; exists ns; splits; try done;
          [by apply remove_first_length|intros; by apply remove_first_NoDup].
    + unfold _Resolution.query_result, _Resolution.log_error, mbind, M_bind,
        gets, _Resolution.assign, modify, mret, M_ret in *.
      cbn [fst snd] in *. rewrite Etcp. cbn. rewrite Etcp.
      eexists; (split; [reflexivity|]); cbn.
      splits; try done.
      intros [?|[?|[?|[? ?]]]]; discriminate.
  - rewrite Hq. eexists; (split; [reflexivity|]); subst logged; cbn.
    splits; try done.
    intros [?|[?|[?|[? ?]]]]; done.
Qed.

Lemma query_result_error_witness :
  exists st',
    _Resolution.query_result
      (env_with (fun _ => Raise FormError) (fun _ => Raise FormError))
      None (Some FormError) (resolution_in_flight, frozen_clock)
    = (Ok (None, false), (st', frozen_clock))
    /\ _Resolution.errors st'
       = [ErrorEntry (Some "10.0.0.1") false 53 (ErrExn FormError) None]
    /\ _Resolution.nameservers st' = [].
Proof.
  destruct (query_result_error
              (env_with (fun _ => Raise FormError) (fun _ => Raise FormError))
              FormError resolution_in_flight frozen_clock)
    as (st' & Hq & He & Hd & _).
  - intros _. exists "10.0.0.1". split; [reflexivity|]. by left.
  - exists st'. split; [exact Hq|]. split; [exact He|].
    destruct Hd as (ns & Hns & Hrm & _); [by left|].
    injection Hns as <-. exact Hrm.
Defined.

(** Without the current nameserver in the pool, the removal raises. *)
Lemma query_result_error_outside_pool (env : Env) (st : _Resolution.t) (w : clock) :
  _Resolution.nameserver st = None ->
  (_Resolution.query_result env None (Some FormError) (st, w)).1
  = Raise ValueError.
Proof.
  intros Hns.
  unfold _Resolution.query_result, _Resolution.log_error,
    _Resolution.remove_nameserver, mbind, M_bind, gets, _Resolution.assign,
    modify, mret, M_ret, list_remove.
  cbn. by rewrite Hns.
Qed.

(** C2, on the code.  With [retry_with_tcp] set, [next_nameserver] keeps
    the nameserver and the port, clears the flag and marks the attempt as
    TCP, but what it returns is the triple [(nameserver, port, True)]: no
    back-off is part of it, and the four-name unpacking in
    [Resolver.resolve] raises [ValueError] instead of retrying over TCP. *)
Theorem next_nameserver_retry_returns_triple (st : _Resolution.t) (w : clock)
        (ns : string) :
  _Resolution.retry_with_tcp st = true ->
  _Resolution.nameserver st = Some ns ->
  exists st',
    _Resolution.next_nameserver (st, w)
    = (Ok (Tuple3 (Some ns) (_Resolution.port st) true), (st', w))
    /\ _Resolution.nameserver st' = Some ns
    /\ _Resolution.port st' = _Resolution.port st
    /\ _Resolution.retry_with_tcp st' = false
    /\ _Resolution.tcp_attempt st' = true
    /\ _Resolution.nameservers st' = _Resolution.nameservers st
    /\ (forall backoff,
          Tuple3 (Some ns) (_Resolution.port st) true
          <> Tuple4 (Some ns) (_Resolution.port st) true backoff)
    /\ unpack4 (Tuple3 (Some ns) (_Resolution.port st) true) = Raise ValueError
    /\ forall fuel env start lifetime source source_port request response attempt,
         (drive (S fuel) env start lifetime source source_port (Some request)
                response attempt (st, w)).1
         = Raise ValueError.
Proof.
  intros Hretry Hns.
  assert (_Resolution.next_nameserver (st, w)
          = (Ok (Tuple3 (Some ns) (_Resolution.port st) true),
             (_Resolution.set_retry_with_tcp false
                (_Resolution.set_tcp_attempt true st), w))) as Hnext.
  { unfold _Resolution.next_nameserver, mbind, M_bind, gets,
      _Resolution.assign, modify, mret, M_ret.
    cbn [fst snd]. by rewrite Hretry, Hns. }
  eexists. split; [exact Hnext|].
  splits; try done.
  intros. cbn [drive]. unfold mbind, M_bind. by rewrite Hnext.
Qed.

Lemma next_nameserver_retry_returns_triple_witness :
  (_Resolution.next_nameserver (resolution_truncated, frozen_clock)).1
  = Ok (Tuple3 (Some "10.0.0.1") 53 true).
Proof.
  destruct (next_nameserver_retry_returns_triple
              resolution_truncated frozen_clock "10.0.0.1" eq_refl eq_refl)
    as (st' & Hq & _).
  by rewrite Hq.
Defined.

(** Scenario 3 of the specification, on the code: the UDP transport
    reports truncation, the TCP transport would answer, and [resolve]
    ends with [ValueError]. *)
Lemma resolve_truncated_udp (fuel : nat) :
  (resolve (S (S (S fuel)))
           (env_with (fun _ => Raise Truncated)
                     (fun r => Ok (reply rcode.NOERROR r)))
           host_root rdatatype.A rdataclass.IN false None true 0 None None
           (resolver_with ["10.0.0.1"] [] false None, frozen_clock)).1
  = Raise ValueError.
Proof. reflexivity. Qed.

(** ** Answer *)

Lemma find_rrset_elem_of section name rdclass rdtype rr :
  find_rrset section name rdclass rdtype = Some rr -> rr ∈ section.
Proof.
  unfold find_rrset. intros H%find_some. apply list_elem_of_In, H.
Qed.

Lemma fold_ttl_nonneg m t : (0 <= t)%Z -> (m = -1 \/ 0 <= m)%Z ->
  (0 <= Answer.fold_ttl m t)%Z.
Proof.
  unfold Answer.fold_ttl. intros Ht [->|Hm]; [done|].
  destruct (m =? -1)%Z; [done|]. simpl.
  destruct (t <? m)%Z; done.
Qed.

Section Chase.
Context (response : Message) (rdtype rdclass : Z) (raise_on_no_answer : bool).
Context (Httl : forall rr, rr ∈ answer response -> (0 <= ttl rr)%Z).

(** Once a TTL was folded in, [min_ttl] stays non-negative. *)
Lemma chase_nonneg count : forall qname m r,
  (0 <= m)%Z ->
  Answer.chase count response rdtype rdclass raise_on_no_answer qname m = Ok r ->
  (0 <= r.2)%Z.
Proof.
  induction count as [|count IH]; intros qname m r Hm; simpl.
  - by intros [= <-].
  - destruct (find_rrset _ qname rdclass rdtype) as [rr|] eqn:E.
    { intros [= <-]. simpl. apply fold_ttl_nonneg; [|by right].
      eapply Httl, find_rrset_elem_of, E. }
    destruct (negb _).
    + destruct (find_rrset _ qname rdclass rdatatype.CNAME) as [crr|] eqn:Ec.
      * assert (0 <= Answer.fold_ttl m (ttl crr))%Z as Hm'.
        { apply fold_ttl_nonneg; [|by right].
          eapply Httl, find_rrset_elem_of, Ec. }
        destruct (items crr) as [|rd ?]; [by apply IH|].
        destruct (Answer.target rd); [by apply IH|done].
      * destruct raise_on_no_answer; [done|by apply IH].
    + destruct raise_on_no_answer; [done|by apply IH].
Qed.

(** With neither the wanted rrset nor a CNAME at [qname], every turn of
    the loop leaves [qname] and [min_ttl] as they are. *)
Lemma chase_nothing count : forall qname m r,
  find_rrset (answer response) qname rdclass rdtype = None ->
  (rdtype = rdatatype.CNAME
   \/ find_rrset (answer response) qname rdclass rdatatype.CNAME = None) ->
  Answer.chase count response rdtype rdclass raise_on_no_answer qname m = Ok r ->
  r = (None, qname, m).
Proof.
  induction count as [|count IH]; intros qname m r E Ec; simpl.
  - by intros [= <-].
  - rewrite E. destruct (Z.eqb_spec rdtype rdatatype.CNAME) as [->|Hne]; simpl.
    + destruct raise_on_no_answer; [done|]. apply IH; [done|by left].
    + destruct Ec as [?|Ec]; [done|]. rewrite Ec.
      destruct raise_on_no_answer; [done|]. apply IH; [done|by right].
Qed.

(** With one of them at [qname], the first turn folds a TTL in. *)
Lemma chase_something count qname r :
  ~ (find_rrset (answer response) qname rdclass rdtype = None
     /\ (rdtype = rdatatype.CNAME
         \/ find_rrset (answer response) qname rdclass rdatatype.CNAME = None)) ->
  Answer.chase (S count) response rdtype rdclass raise_on_no_answer qname (-1)
  = Ok r ->
  (0 <= r.2)%Z.
Proof.
  intros Hsome. simpl.
  destruct (find_rrset _ qname rdclass rdtype) as [rr|] eqn:E.
  { intros [= <-]. simpl. eapply Httl, find_rrset_elem_of, E. }
  destruct (Z.eqb_spec rdtype rdatatype.CNAME) as [->|Hne]; simpl.
  { exfalso. apply Hsome. split; [done|by left]. }
  destruct (find_rrset _ qname rdclass rdatatype.CNAME) as [crr|] eqn:Ec.
  - assert (0 <= Answer.fold_ttl (-1) (ttl crr))%Z as Hm'.
    { apply fold_ttl_nonneg; [|by left].
      eapply Httl, find_rrset_elem_of, Ec. }
    destruct (items crr) as [|rd ?]; [by apply chase_nonneg|].
    destruct (Answer.target rd); [by apply chase_nonneg|done].
  - exfalso. apply Hsome. split; [done|by right].
Qed.
End Chase.

Lemma suffix_of_cons {A} (l' : list A) x l :
  l' `suffix_of` x :: l -> l' = x :: l \/ l' `suffix_of` l.
Proof.
  intros [[|y k] Hk]; simpl in Hk.
  - by left.
  - injection Hk as -> ->. right. by exists k.
Qed.

Section SoaWalk.
Context (response : Message) (rdclass : Z) (absolute : bool).
Context (Httl : forall rr, rr ∈ authority response -> (0 <= ttl rr)%Z).
Context (Hmin : forall rr m, rr ∈ authority response -> RdSOA m ∈ items rr ->
                             (0 <= m)%Z).

Lemma soa_walk_nonneg labels : forall m m',
  (0 <= m)%Z ->
  Answer.soa_walk response rdclass labels absolute m = Ok m' -> (0 <= m')%Z.
Proof.
  induction labels as [|l labels IH]; intros m m' Hm; simpl;
    (destruct (find_rrset _ _ rdclass rdatatype.SOA) as [rr|] eqn:E;
     [|first [by intros [= <-] | by apply IH]]).
  all: pose proof (find_rrset_elem_of _ _ _ _ _ E) as Hin.
  all: destruct (items rr) as [|rd ?] eqn:Ei; [done|].
  all: destruct rd as [|mn|]; simpl; try done.
  all: intros [= <-].
  all: assert (0 <= mn)%Z by (eapply Hmin; [done|rewrite Ei; by left]).
  all: assert (0 <= Answer.fold_ttl m (ttl rr))%Z
         by (apply fold_ttl_nonneg; [by apply Httl|by right]).
  all: by destruct (mn <? _)%Z.
Qed.

Lemma soa_walk_nothing labels : forall m m',
  (forall l, l `suffix_of` labels ->
             find_rrset (authority response) (Name.mk l absolute)
                        rdclass rdatatype.SOA = None) ->
  Answer.soa_walk response rdclass labels absolute m = Ok m' -> m' = m.
Proof.
  induction labels as [|l labels IH]; intros m m' Hnone; simpl.
  - rewrite Hnone by done. by intros [= <-].
  - rewrite Hnone by done. apply IH.
    intros l' Hl'. apply Hnone. by apply suffix_cons_r.
Qed.

Lemma soa_walk_something labels : forall m m',
  (m = -1 \/ 0 <= m)%Z ->
  ~ (forall l, l `suffix_of` labels ->
               find_rrset (authority response) (Name.mk l absolute)
                          rdclass rdatatype.SOA = None) ->
  Answer.soa_walk response rdclass labels absolute m = Ok m' -> (0 <= m')%Z.
Proof.
  induction labels as [|l labels IH]; intros m m' Hm Hsome; simpl;
    (destruct (find_rrset _ _ rdclass rdatatype.SOA) as [rr|] eqn:E).
  1,3: pose proof (find_rrset_elem_of _ _ _ _ _ E) as Hin;
       destruct (items rr) as [|rd ?] eqn:Ei; [done|];
       destruct rd as [|mn|]; simpl; try done;
       intros [= <-];
       assert (0 <= mn)%Z by (eapply Hmin; [done|rewrite Ei; by left]);
       assert (0 <= Answer.fold_ttl m (ttl rr))%Z
         by (apply fold_ttl_nonneg; [by apply Httl|done]);
       by destruct (mn <? _)%Z.
  - exfalso. apply Hsome. intros l' Hl'.
    apply suffix_nil_inv in Hl' as ->. exact E.
  - apply IH; [done|]. intros Hnone. apply Hsome. intros l' Hl'.
    apply suffix_of_cons in Hl' as [->|Hl']; [exact E|by apply Hnone].
Qed.
End SoaWalk.

(** Whether the first turn of the chase finds something is decidable. *)
Lemma classic_chase qname rdtype rdclass response :
  ~ (find_rrset (answer response) qname rdclass rdtype = None
     /\ (rdtype = rdatatype.CNAME
         \/ find_rrset (answer response) qname rdclass rdatatype.CNAME = None))
  \/ (find_rrset (answer response) qname rdclass rdtype = None
      /\ (rdtype = rdatatype.CNAME
          \/ find_rrset (answer response) qname rdclass rdatatype.CNAME = None)).
Proof.
  destruct (find_rrset (answer response) qname rdclass rdtype);
    [left; by intros [? _]|].
  destruct (decide (rdtype = rdatatype.CNAME)); [right; split; [done|by left]|].
  destruct (find_rrset (answer response) qname rdclass rdatatype.CNAME).
  - left. intros [_ [?|?]]; done.
  - right. split; [done|by right].
Qed.

(** What a successful [Answer.__init__] has computed. *)
Lemma Answer_init_inv qname rdtype rdclass response raise_on_no_answer
      nameserver port w a w' :
  Answer.__init__ qname rdtype rdclass response raise_on_no_answer
                  nameserver port w = (Ok a, w') ->
  exists rrset cn m,
    Answer.assemble qname rdtype rdclass response raise_on_no_answer
    = Ok (rrset, cn, m)
    /\ a = Answer.mk qname rdtype rdclass response nameserver port cn rrset
                     (readings w (ticks w) + inject_Z m)%Q
    /\ w' = mkClock (readings w) (S (ticks w)).
Proof.
  unfold Answer.__init__.
  destruct (Answer.assemble _ _ _ _ _) as [[[rrset cn] m]|]; [|done].
  simpl. intros [= <- <-]. eauto 10.
Qed.

Lemma Answer_assemble_inv qname rdtype rdclass response raise_on_no_answer
      rrset cn m :
  Answer.assemble qname rdtype rdclass response raise_on_no_answer
  = Ok (rrset, cn, m) ->
  exists m0,
    Answer.chase 15 response rdtype rdclass raise_on_no_answer qname (-1)
    = Ok (rrset, cn, m0)
    /\ ((rrset <> None /\ m = m0)
        \/ (rrset = None /\ raise_on_no_answer = false
            /\ Answer.soa_walk response rdclass (Name.labels cn)
                               (Name.absolute cn) m0 = Ok m)).
Proof.
  unfold Answer.assemble.
  destruct (Answer.chase 15 _ _ _ _ _ _) as [[[rr q'] m0]|]; [|done].
  destruct rr as [rr|].
  - intros [= <- <- <-]. exists m0. split; [done|]. by left.
  - destruct raise_on_no_answer; [done|].
    destruct (Answer.soa_walk _ _ _ _ _) as [m'|] eqn:Ew; [|done].
    intros [= <- <- <-]. exists m0. split; [done|]. by right.
Qed.

(** C1, as the code has it.  An [Answer] built when the clock shows [t]
    expires at [t + min_ttl].  When the response holds nothing to take a
    TTL from, [min_ttl] is still the initial [-1] and the answer expires
    at [t - 1], before [t]; in every other case [min_ttl] is not negative
    and the answer expires at [t] or later. *)
Theorem Answer_expiration (qname : Name.t) (rdtype rdclass : Z)
        (response : Message) (raise_on_no_answer : bool)
        (nameserver : option string) (port : option Z) (w w' : clock)
        (a : Answer.t) :
  ttls_nonnegative response ->
  Answer.__init__ qname rdtype rdclass response raise_on_no_answer
                  nameserver port w = (Ok a, w') ->
  let t := readings w (ticks w) in
  exists min_ttl : Z,
    Answer.expiration a = (t + inject_Z min_ttl)%Q
    /\ (nothing_found qname rdtype rdclass response ->
        min_ttl = (-1)%Z /\ (Answer.expiration a < t)%Q)
    /\ (~ nothing_found qname rdtype rdclass response ->
        (0 <= min_ttl)%Z /\ (t <= Answer.expiration a)%Q).
Proof.
  intros [Httl Hmin] Hinit t.
  assert (forall rr, rr ∈ answer response -> (0 <= ttl rr)%Z) as Hans
    by (intros; apply Httl, elem_of_app; by left).
  assert (forall rr, rr ∈ authority response -> (0 <= ttl rr)%Z) as Haut
    by (intros; apply Httl, elem_of_app; by right).
  apply Answer_init_inv in Hinit as (rr & q' & m' & Hasm & -> & _).
  apply Answer_assemble_inv in Hasm as (m & Ech & Hm').
  exists m'. split; [done|]. cbn [Answer.expiration]. fold t. split.
  - intros (Hn1 & Hn2 & Hn3).
    apply chase_nothing in Ech; [|done..]. injection Ech as -> -> ->.
    destruct Hm' as [[? _]|(_ & _ & Hw)]; [done|].
    apply soa_walk_nothing in Hw as ->; [|done].
    split; [done|]. unfold inject_Z. lra.
  - intros Hsome.
    assert (0 <= m')%Z as Hnn.
    { destruct (classic_chase qname rdtype rdclass response) as [Hc|Hc].
      - apply chase_something in Ech; [|done..]. simpl in Ech.
        destruct Hm' as [[_ ->]|(_ & _ & Hw)]; [done|].
        eapply soa_walk_nonneg; eauto.
      - destruct Hc as [Hc1 Hc2].
        apply chase_nothing in Ech; [|done..]. injection Ech as -> -> ->.
        destruct Hm' as [[? _]|(_ & _ & Hw)]; [done|].
        eapply soa_walk_something; eauto.
        intros Hnone. apply Hsome. by split. }
    split; [done|].
    rewrite Zle_Qle in Hnn. change (inject_Z 0) with 0%Q in Hnn. lra.
Qed.

Lemma a_response_ttls : ttls_nonnegative a_response.
Proof.
  split.
  - intros rr Hin. apply list_elem_of_singleton in Hin as ->. done.
  - intros rr m Hin. by apply elem_of_nil in Hin.
Defined.

Lemma Answer_expiration_witness :
  exists a,
    (Answer.__init__ host_root rdatatype.A rdataclass.IN a_response true
                     (Some "10.0.0.1") (Some 53%Z) (clock_at 1000)).1 = Ok a
    /\ (1000 <= Answer.expiration a)%Q.
Proof.
  eexists. split; [reflexivity|].
  destruct (Answer_expiration host_root rdatatype.A rdataclass.IN a_response
              true (Some "10.0.0.1") (Some 53%Z) (clock_at 1000) _ _
              a_response_ttls eq_refl) as (m & _ & _ & Hsome).
  apply Hsome. intros (Hnone & _). discriminate Hnone.
Defined.

(** C1 as stated fails: a NOERROR response with empty sections, accepted
    with [raise_on_no_answer=False] at time 1000, gives an answer that
    expired at 999. *)
Lemma Answer_expiration_counterexample :
  exists a,
    (Answer.__init__ host_root rdatatype.A rdataclass.IN
                     (reply rcode.NOERROR None) false None None
                     (clock_at 1000)).1 = Ok a
    /\ Answer.rrset a = None
    /\ Answer.expiration a = (1000 + inject_Z (-1))%Q
    /\ ~ (1000 <= Answer.expiration a)%Q.
Proof.
  eexists. split; [reflexivity|]. split; [reflexivity|].
  split; [reflexivity|]. simpl. unfold inject_Z. lra.
Qed.

(** ** The node objects of the LRU cache *)

Section Store.
Implicit Types (h : LRUCacheNode.store) (a b p q n s : addr).

Lemma load_Some h a nd :
  h !! a = Some nd -> LRUCacheNode.load a h = (Ok nd, h).
Proof. unfold LRUCacheNode.load. by intros ->. Qed.

Lemma set_prev_Some h a v nd :
  h !! a = Some nd ->
  LRUCacheNode.set_prev a v h
  = (Ok tt, <[a := LRUCacheNode.mk (LRUCacheNode.key nd) (LRUCacheNode.value nd)
                                   v (LRUCacheNode.next nd)]> h).
Proof.
  intros H. unfold LRUCacheNode.set_prev, mbind, M_bind.
  by rewrite (load_Some _ _ _ H).
Qed.

Lemma set_next_Some h a v nd :
  h !! a = Some nd ->
  LRUCacheNode.set_next a v h
  = (Ok tt, <[a := LRUCacheNode.mk (LRUCacheNode.key nd) (LRUCacheNode.value nd)
                                   (LRUCacheNode.prev nd) v]> h).
Proof.
  intros H. unfold LRUCacheNode.set_next, mbind, M_bind.
  by rewrite (load_Some _ _ _ H).
Qed.

Lemma set_prev_effect h a v :
  is_Some (h !! a) ->
  exists h', LRUCacheNode.set_prev a v h = (Ok tt, h') /\ assigns_prev h a v h'.
Proof.
  intros [nd H]. eexists. split; [by apply set_prev_Some|].
  unfold assigns_prev, fnext, fprev, fkey, fvalue.
  repeat split; intros b; rewrite lookup_insert;
    destruct (decide (a = b)) as [<-|?]; try rewrite H; try done.
  - by rewrite decide_True.
  - by rewrite decide_False by done.
Qed.

Lemma set_next_effect h a v :
  is_Some (h !! a) ->
  exists h', LRUCacheNode.set_next a v h = (Ok tt, h') /\ assigns_next h a v h'.
Proof.
  intros [nd H]. eexists. split; [by apply set_next_Some|].
  unfold assigns_next, fnext, fprev, fkey, fvalue.
  repeat split; intros b; rewrite lookup_insert;
    destruct (decide (a = b)) as [<-|?]; try rewrite H; try done.
  - by rewrite decide_True.
  - by rewrite decide_False by done.
Qed.

Lemma fnext_is_Some h a b : fnext h a = Some b -> is_Some (h !! a).
Proof. unfold fnext. destruct (h !! a); [eauto|done]. Qed.

Lemma fprev_is_Some h a b : fprev h a = Some b -> is_Some (h !! a).
Proof. unfold fprev. destruct (h !! a); [eauto|done]. Qed.

Lemma load_pointers h a p q :
  fprev h a = Some p -> fnext h a = Some q ->
  exists nd, LRUCacheNode.load a h = (Ok nd, h)
             /\ LRUCacheNode.prev nd = p /\ LRUCacheNode.next nd = q.
Proof.
  unfold fprev, fnext, LRUCacheNode.load.
  destruct (h !! a) as [nd|]; [|done]. simpl.
  intros [= <-] [= <-]. eauto.
Qed.

(** [unlink]: the neighbours [p] and [q] of the node now point to each
    other; nothing else changes. *)
Lemma unlink_effect h n p q :
  fprev h n = Some p -> fnext h n = Some q ->
  is_Some (h !! p) -> is_Some (h !! q) ->
  exists h',
    LRUCacheNode.unlink n h = (Ok tt, h')
    /\ (forall b, fnext h' b = if decide (b = p) then Some q else fnext h b)
    /\ (forall b, fprev h' b = if decide (b = q) then Some p else fprev h b)
    /\ (forall b, fkey h' b = fkey h b)
    /\ (forall b, fvalue h' b = fvalue h b).
Proof.
  intros Hp Hq Ap Aq.
  destruct (load_pointers _ _ _ _ Hp Hq) as (nd & Hl & <- & <-).
  destruct (set_prev_effect h (LRUCacheNode.next nd) (LRUCacheNode.prev nd) Aq)
    as (h1 & Hs1 & N1 & P1 & K1 & V1).
  assert (fprev h1 n = Some (LRUCacheNode.prev nd)) as Hp1.
  { rewrite P1. by destruct (decide _). }
  assert (fnext h1 n = Some (LRUCacheNode.next nd)) as Hq1 by (by rewrite N1).
  destruct (load_pointers _ _ _ _ Hp1 Hq1) as (nd1 & Hl1 & E1 & E2).
  assert (is_Some (h1 !! LRUCacheNode.prev nd)) as Ap1.
  { destruct Ap as [x Hx].
    eapply (fnext_is_Some _ _ (LRUCacheNode.next x)).
    rewrite N1. unfold fnext. by rewrite Hx. }
  destruct (set_next_effect h1 (LRUCacheNode.prev nd) (LRUCacheNode.next nd) Ap1)
    as (h2 & Hs2 & N2 & P2 & K2 & V2).
  exists h2. split.
  { unfold LRUCacheNode.unlink, mbind, M_bind.
    rewrite Hl, Hs1, Hl1, E1, E2. exact Hs2. }
  repeat split; intros b.
  - rewrite N2, N1. done.
  - rewrite P2, P1. done.
  - by rewrite K2, K1.
  - by rewrite V2, V1.
Qed.

(** [link_after]: the node [n] now sits between [s] and the node [q]
    that came after [s]; nothing else changes. *)
Lemma link_after_effect h n s q :
  n <> s -> n <> q ->
  is_Some (h !! n) -> fnext h s = Some q -> is_Some (h !! q) ->
  exists h',
    LRUCacheNode.link_after n s h = (Ok tt, h')
    /\ (forall b, fnext h' b = if decide (b = s) then Some n
                               else if decide (b = n) then Some q
                               else fnext h b)
    /\ (forall b, fprev h' b = if decide (b = q) then Some n
                               else if decide (b = n) then Some s
                               else fprev h b)
    /\ (forall b, fkey h' b = fkey h b)
    /\ (forall b, fvalue h' b = fvalue h b).
Proof.
  intros Hns Hnq An Hs Aq.
  destruct (set_prev_effect h n s An) as (h1 & Hs1 & N1 & P1 & K1 & V1).
  assert (exists nd, LRUCacheNode.load s h1 = (Ok nd, h1)
                     /\ LRUCacheNode.next nd = q) as (nd1 & Hl1 & E1).
  { pose proof (N1 s) as H. rewrite Hs in H. unfold fnext in H.
    unfold LRUCacheNode.load. destruct (h1 !! s) as [nd|]; [|done].
    injection H as <-. eauto. }
  assert (is_Some (h1 !! n)) as An1.
  { eapply (fprev_is_Some _ _ s). rewrite P1. by rewrite decide_True. }
  destruct (set_next_effect h1 n q An1) as (h2 & Hs2 & N2 & P2 & K2 & V2).
  assert (exists nd, LRUCacheNode.load s h2 = (Ok nd, h2)
                     /\ LRUCacheNode.next nd = q) as (nd2 & Hl2 & E2).
  { pose proof (N2 s) as H. rewrite decide_False, N1, Hs in H by done.
    unfold fnext in H. unfold LRUCacheNode.load.
    destruct (h2 !! s) as [nd|]; [|done]. injection H as <-. eauto. }
  assert (is_Some (h2 !! q)) as Aq2.
  { destruct Aq as [x Hx]. eapply (fprev_is_Some _ _ (LRUCacheNode.prev x)).
    rewrite P2, P1, decide_False by done. unfold fprev. by rewrite Hx. }
  destruct (set_prev_effect h2 q n Aq2) as (h3 & Hs3 & N3 & P3 & K3 & V3).
  assert (is_Some (h3 !! s)) as As3.
  { eapply (fnext_is_Some _ _ q).
    rewrite N3, N2, decide_False, N1 by done. exact Hs. }
  destruct (set_next_effect h3 s n As3) as (h4 & Hs4 & N4 & P4 & K4 & V4).
  exists h4. split.
  { unfold LRUCacheNode.link_after, mbind, M_bind.
    rewrite Hs1, Hl1, E1, Hs2, Hl2, E2, Hs3. exact Hs4. }
  repeat split; intros b.
  - rewrite N4. destruct (decide (b = s)); [done|]. by rewrite N3, N2, N1.
  - rewrite P4, P3. destruct (decide (b = q)); [done|]. by rewrite P2, P1.
  - by rewrite K4, K3, K2, K1.
  - by rewrite V4, V3, V2, V1.
Qed.
End Store.

(** ** The circle of nodes *)

Lemma adjacent_app (A : list addr) x B :
  adjacent (A ++ x :: B) = adjacent (A ++ [x]) ++ adjacent (x :: B).
Proof.
  induction A as [|a A IH]; [done|].
  destruct A as [|a' A]; [done|].
  change (adjacent ((a :: a' :: A) ++ x :: B))
    with ((a, a') :: adjacent ((a' :: A) ++ x :: B)).
  rewrite IH. done.
Qed.

Lemma adjacent_ends (L : list addr) x y :
  (x, y) ∈ adjacent L -> x ∈ removelast L /\ y ∈ tail L.
Proof.
  induction L as [|a L IH]; [by intros ?%elem_of_nil|].
  destruct L as [|b L]; [by intros ?%elem_of_nil|].
  change (adjacent (a :: b :: L)) with ((a, b) :: adjacent (b :: L)).
  change (removelast (a :: b :: L)) with (a :: removelast (b :: L)).
  intros [[= -> ->]|Hin]%elem_of_cons.
  - split; by left.
  - destruct (IH Hin) as [H1 H2]. split; [by right|].
    simpl. right. exact H2.
Qed.

Lemma snoc_of_cons {A} (x : A) l : exists l' y, x :: l = l' ++ [y].
Proof.
  revert x. induction l as [|z l IH]; intros x.
  - by exists [], x.
  - destruct (IH z) as (l' & y & ->). by exists (x :: l'), y.
Qed.

Lemma cons_of_snoc {A} (l : list A) x : exists y l', l ++ [x] = y :: l'.
Proof. destruct l; simpl; eauto. Qed.

(** Taking [n] out from between [p] and [q]. *)
Lemma linked_remove h h' (A : list addr) p n q B :
  p ∉ A -> q ∉ tail (A ++ [p]) -> p ∉ removelast (q :: B) -> q ∉ B ->
  linked h (A ++ p :: n :: q :: B) ->
  (forall b, fnext h' b = if decide (b = p) then Some q else fnext h b) ->
  (forall b, fprev h' b = if decide (b = q) then Some p else fprev h b) ->
  linked h' (A ++ p :: q :: B).
Proof.
  intros H1 H2 H3 H4 Hl Hn Hp x y.
  rewrite adjacent_app. change (adjacent (p :: q :: B))
    with ((p, q) :: adjacent (q :: B)).
  rewrite elem_of_app, elem_of_cons.
  assert (forall x y, (x, y) ∈ adjacent (A ++ [p]) \/ (x, y) ∈ adjacent (q :: B) ->
                      fnext h x = Some y /\ fprev h y = Some x) as Hold.
  { intros x' y' Hin. apply Hl.
    rewrite adjacent_app.
    change (adjacent (p :: n :: q :: B))
      with ((p, n) :: (n, q) :: adjacent (q :: B)).
    rewrite elem_of_app, !elem_of_cons. tauto. }
  intros [Hin|[[= -> ->]|Hin]].
  - destruct (Hold x y (or_introl Hin)) as [E1 E2].
    apply adjacent_ends in Hin as [Hx Hy].
    rewrite removelast_last in Hx.
    rewrite Hn, Hp, !decide_False; [done|congruence..].
  - rewrite Hn, Hp, !decide_True by done. done.
  - destruct (Hold x y (or_intror Hin)) as [E1 E2].
    apply adjacent_ends in Hin as [Hx Hy]. simpl tail in Hy.
    rewrite Hn, Hp, !decide_False; [done|congruence..].
Qed.

(** Putting [n] between [s] and [q]. *)
Lemma linked_insert h h' s n q (B : list addr) :
  n <> s -> n <> q -> s ∉ removelast (q :: B) -> n ∉ q :: B -> q ∉ B ->
  linked h (s :: q :: B) ->
  (forall b, fnext h' b = if decide (b = s) then Some n
                          else if decide (b = n) then Some q else fnext h b) ->
  (forall b, fprev h' b = if decide (b = q) then Some n
                          else if decide (b = n) then Some s else fprev h b) ->
  linked h' (s :: n :: q :: B).
Proof.
  intros Hns Hnq H1 H2 H3 Hl Hn Hp x y.
  change (adjacent (s :: n :: q :: B))
    with ((s, n) :: (n, q) :: adjacent (q :: B)).
  rewrite !elem_of_cons.
  intros [[= -> ->]|[[= -> ->]|Hin]].
  - rewrite Hn, Hp, decide_True, decide_False, decide_True by done. done.
  - rewrite Hn, Hp, decide_False, !decide_True by done. done.
  - destruct (Hl x y) as [E1 E2].
    { change (adjacent (s :: q :: B)) with ((s, q) :: adjacent (q :: B)).
      by right. }
    apply adjacent_ends in Hin as [Hx Hy]. simpl tail in Hy.
    assert (x ∈ q :: B) as Hx'.
    { clear -Hx. revert Hx. generalize (q :: B). intros L.
      induction L as [|a L IH]; [done|]. destruct L as [|b L].
      - by intros ?%elem_of_nil.
      - change (removelast (a :: b :: L)) with (a :: removelast (b :: L)).
        intros [->|?]%elem_of_cons; [by left|right; by apply IH]. }
    assert (x <> s) by (intros ->; done).
    assert (x <> n) by (intros ->; done).
    assert (y <> q) by (intros ->; done).
    assert (y <> n) by (intros ->; apply H2; by right).
    rewrite Hn, Hp, !decide_False by done. done.
Qed.

Lemma NoDup_snoc {A} (l : list A) x : NoDup l -> x ∉ l -> NoDup (l ++ [x]).
Proof.
  intros Hl Hx. apply NoDup_app. split; [done|]. split.
  - intros y Hy ->%list_elem_of_singleton. done.
  - apply NoDup_singleton.
Qed.

(** The node of an entry leaves the circle. *)
Lemma shape_unlink s h l1 k a l2 :
  lru_shape s h (l1 ++ (k, a) :: l2) ->
  exists h',
    LRUCacheNode.unlink a h = (Ok tt, h')
    /\ lru_shape s h' (l1 ++ l2)
    /\ (forall b, fkey h' b = fkey h b)
    /\ (forall b, fvalue h' b = fvalue h b).
Proof.
  intros [Hk Ha Hl Hn].
  rewrite fmap_app, fmap_cons in Hk. rewrite fmap_app, fmap_cons in Ha.
  rewrite fmap_app, fmap_cons in Hl. simpl in Hk, Ha, Hl.
  set (L1 := l1.*2) in *. set (L2 := l2.*2) in *.
  apply NoDup_cons in Ha as [Hs Ha].
  apply NoDup_app in Ha as (HL1 & Hdis & Ha).
  apply NoDup_cons in Ha as [HaL2 HL2].
  rewrite not_elem_of_app, not_elem_of_cons in Hs. destruct Hs as (Hs1 & Hsa & Hs2).
  destruct (snoc_of_cons s L1) as (A & p & E1).
  destruct (cons_of_snoc L2 s) as (q & B & E2).
  assert (s :: (L1 ++ a :: L2) ++ [s] = A ++ p :: a :: q :: B) as Epath.
  { rewrite <- app_assoc. simpl. rewrite E2.
    change (s :: L1 ++ a :: q :: B) with ((s :: L1) ++ a :: q :: B).
    rewrite E1, <- app_assoc. done. }
  assert (s :: (L1 ++ L2) ++ [s] = A ++ p :: q :: B) as Epath'.
  { rewrite <- app_assoc, E2.
    change (s :: L1 ++ q :: B) with ((s :: L1) ++ q :: B).
    rewrite E1, <- app_assoc. done. }
  rewrite Epath in Hl.
  assert ((p, a) ∈ adjacent (A ++ p :: a :: q :: B)
          /\ (a, q) ∈ adjacent (A ++ p :: a :: q :: B)) as [Hpa Haq].
  { rewrite adjacent_app.
    change (adjacent (p :: a :: q :: B))
      with ((p, a) :: (a, q) :: adjacent (q :: B)).
    rewrite !elem_of_app, !elem_of_cons. tauto. }
  destruct (Hl _ _ Hpa) as [Np Pa]. destruct (Hl _ _ Haq) as [Na Pq].
  destruct (unlink_effect h a p q Pa Na (fnext_is_Some _ _ _ Np)
                          (fprev_is_Some _ _ _ Pq))
    as (h' & Hun & N' & P' & K' & V').
  assert (NoDup (s :: L1)) as HsL1 by (by apply NoDup_cons).
  assert (NoDup (L2 ++ [s])) as HL2s by (by apply NoDup_snoc).
  assert (p ∈ s :: L1) as Hp by (rewrite E1, elem_of_app; right; by left).
  assert (q ∈ L2 ++ [s]) as Hq by (rewrite E2; by left).
  exists h'. split; [exact Hun|]. split; [|done].
  constructor.
  - rewrite fmap_app. apply NoDup_app in Hk as (? & Hd & Hk).
    apply NoDup_cons in Hk as [? ?]. apply NoDup_app. split; [done|].
    split; [|done]. intros x Hx Hx'. apply (Hd x Hx). by right.
  - rewrite fmap_app. fold L1 L2. apply NoDup_cons. split.
    + rewrite not_elem_of_app. done.
    + apply NoDup_app. split; [done|]. split; [|done].
      intros x Hx Hx'. apply (Hdis x Hx). by right.
  - rewrite fmap_app. fold L1 L2. rewrite Epath'.
    eapply linked_remove; [| | | |exact Hl|exact N'|exact P'].
    + rewrite E1 in HsL1. apply NoDup_app in HsL1 as (_ & Hd & _).
      intros Hin. apply (Hd p Hin). by left.
    + rewrite <- E1. simpl. intros Hin.
      apply elem_of_app in Hq as [Hq| ->%list_elem_of_singleton]; [|done].
      apply (Hdis q Hin). by right.
    + rewrite <- E2, removelast_last. intros Hin.
      apply elem_of_cons in Hp as [->|Hp]; [done|].
      apply (Hdis p Hp). by right.
    + rewrite E2 in HL2s. by apply NoDup_cons in HL2s as [? _].
  - intros k' a' Hin. rewrite K', V'. apply Hn.
    rewrite elem_of_app, elem_of_cons.
    apply elem_of_app in Hin. tauto.
Qed.

(** A node outside the circle enters it just after the sentinel. *)
Lemma shape_link_after s h l k a v :
  lru_shape s h l ->
  a <> s -> a ∉ l.*2 -> k ∉ l.*1 ->
  fkey h a = Some (Some k) -> fvalue h a = Some (Some v) ->
  exists h',
    LRUCacheNode.link_after a s h = (Ok tt, h')
    /\ lru_shape s h' ((k, a) :: l)
    /\ (forall b, fkey h' b = fkey h b)
    /\ (forall b, fvalue h' b = fvalue h b).
Proof.
  intros [Hk Ha Hl Hn] Has Hal Hkl Ka Va.
  set (L := l.*2) in *.
  apply NoDup_cons in Ha as [Hs HL].
  destruct (cons_of_snoc L s) as (q & B & E).
  assert (s :: L ++ [s] = s :: q :: B) as Epath by (by rewrite E).
  rewrite Epath in Hl.
  destruct (Hl s q) as [Ns Pq]; [by left|].
  assert (q ∈ L ++ [s]) as Hq by (rewrite E; by left).
  assert (a ∉ L ++ [s]) as HaLs.
  { rewrite not_elem_of_app, list_elem_of_singleton. done. }
  assert (a <> q) as Haq by (intros ->; done).
  assert (is_Some (h !! a)) as Aa.
  { unfold fkey in Ka. destruct (h !! a); [eauto|done]. }
  destruct (link_after_effect h a s q Has Haq Aa Ns (fprev_is_Some _ _ _ Pq))
    as (h' & Hlk & N' & P' & K' & V').
  assert (NoDup (L ++ [s])) as HLs by (by apply NoDup_snoc).
  exists h'. split; [exact Hlk|]. split; [|done].
  constructor.
  - rewrite fmap_cons. apply NoDup_cons. done.
  - rewrite fmap_cons. fold L. simpl. apply NoDup_cons. split.
    + rewrite not_elem_of_cons. split; [congruence|done].
    + apply NoDup_cons. done.
  - rewrite fmap_cons. fold L. simpl.
    change (s :: a :: L ++ [s]) with (s :: a :: (L ++ [s])). rewrite E.
    eapply linked_insert; [done|done| | | |exact Hl|exact N'|exact P'].
    + rewrite <- E, removelast_last. done.
    + by rewrite <- E.
    + rewrite E in HLs. by apply NoDup_cons in HLs as [? _].
  - intros k' a' Hin. rewrite K', V'.
    apply elem_of_cons in Hin as [[= -> ->]|Hin]; [eauto|by apply Hn].
Qed.

(** ** The LRU cache *)

Lemma on_nodes_ok {A} (m : M LRUCacheNode.store A) c x h' :
  m (LRUCache.nodes c) = (Ok x, h') ->
  LRUCache.on_nodes m c = (Ok x, LRUCache.with_nodes h' c).
Proof. unfold LRUCache.on_nodes, zoom. by intros ->. Qed.

Lemma on_nodes_load c a nd :
  LRUCache.nodes c !! a = Some nd ->
  LRUCache.on_nodes (LRUCacheNode.load a) c = (Ok nd, c).
Proof.
  intros H. unfold LRUCache.on_nodes, zoom, LRUCacheNode.load.
  rewrite H. by destruct c.
Qed.

Lemma with_clock_ok {S A} (m : M S A) (c : S) (w : clock) x c' :
  m c = (Ok x, c') -> with_clock m (c, w) = (Ok x, (c', w)).
Proof. unfold with_clock, zoom. simpl. by intros ->. Qed.

Lemma list_to_map_middle (l1 l2 : list (CacheKey * addr)) k a :
  NoDup (l1 ++ (k, a) :: l2).*1 ->
  (list_to_map (l1 ++ (k, a) :: l2) : gmap CacheKey addr)
  = <[k := a]> (list_to_map (l1 ++ l2)).
Proof.
  intros Hnd. rewrite <- list_to_map_cons.
  apply list_to_map_proper; [done|].
  by rewrite Permutation_middle.
Qed.

Lemma NoDup_keys_middle (l1 l2 : list (CacheKey * addr)) k a :
  NoDup (l1 ++ (k, a) :: l2).*1 ->
  NoDup (l1 ++ l2).*1 /\ k ∉ (l1 ++ l2).*1.
Proof.
  rewrite !fmap_app, fmap_cons. simpl. intros Hnd.
  apply NoDup_app in Hnd as (H1 & Hd & Hnd).
  apply NoDup_cons in Hnd as [Hk H2]. split.
  - apply NoDup_app. split; [done|]. split; [|done].
    intros x Hx Hx'. apply (Hd x Hx). by right.
  - rewrite not_elem_of_app. split; [|done].
    intros Hin. apply (Hd k Hin). by left.
Qed.

Lemma delete_list_to_map_middle (l1 l2 : list (CacheKey * addr)) k a :
  NoDup (l1 ++ (k, a) :: l2).*1 ->
  delete k (list_to_map (l1 ++ (k, a) :: l2) : gmap CacheKey addr)
  = list_to_map (l1 ++ l2).
Proof.
  intros Hnd. rewrite list_to_map_middle by done.
  destruct (NoDup_keys_middle _ _ _ _ Hnd) as [_ Hk].
  rewrite delete_insert_eq. apply delete_id.
  by apply not_elem_of_list_to_map_1.
Qed.

Lemma lru_inv_lookup c l k :
  lru_inv c l ->
  LRUCache.data c !! k
  = (list_to_map l : gmap CacheKey addr) !! k.
Proof. intros H. by rewrite (inv_data _ _ H). Qed.

Lemma lru_inv_lookup_Some c l k a :
  lru_inv c l -> LRUCache.data c !! k = Some a ->
  exists l1 l2, l = l1 ++ (k, a) :: l2.
Proof.
  intros H Hk. rewrite (inv_data _ _ H) in Hk.
  apply elem_of_list_to_map_2 in Hk. by apply list_elem_of_split.
Qed.

Lemma lru_inv_lookup_None c l k :
  lru_inv c l -> LRUCache.data c !! k = None -> k ∉ l.*1.
Proof.
  intros H Hk. rewrite (inv_data _ _ H) in Hk.
  by apply not_elem_of_list_to_map_2 in Hk.
Qed.

Lemma lru_inv_size c l :
  lru_inv c l -> size (LRUCache.data c) = length l.
Proof.
  intros H. rewrite (inv_data _ _ H).
  apply map_size_list_to_map, (shape_keys _ _ _ (inv_shape _ _ H)).
Qed.

Lemma drop_key_middle (l1 l2 : list (CacheKey * addr)) k a :
  NoDup (l1 ++ (k, a) :: l2).*1 ->
  drop_key k (l1 ++ (k, a) :: l2) = l1 ++ l2.
Proof.
  intros Hnd. destruct (NoDup_keys_middle _ _ _ _ Hnd) as [_ Hk].
  rewrite fmap_app, not_elem_of_app in Hk. destruct Hk as [Hk1 Hk2].
  assert (forall l : list (CacheKey * addr), k ∉ l.*1 -> drop_key k l = l) as Hid.
  { induction l as [|e l IH]; [done|]. rewrite fmap_cons, not_elem_of_cons.
    intros [? ?]. unfold drop_key. rewrite filter_cons_True by done.
    f_equal. by apply IH. }
  unfold drop_key in *. rewrite filter_app, filter_cons_False by (simpl; tauto).
  by rewrite !Hid.
Qed.

Lemma drop_key_absent (l : list (CacheKey * addr)) k :
  k ∉ l.*1 -> drop_key k l = l.
Proof.
  induction l as [|e l IH]; [done|]. rewrite fmap_cons, not_elem_of_cons.
  intros [? ?]. unfold drop_key. rewrite filter_cons_True by done.
  f_equal. by apply IH.
Qed.

(** Removing the entry of a key: [node.unlink()] and
    [del self.data[node.key]]. *)
Lemma lru_remove_entry c l1 k a l2 :
  lru_inv c (l1 ++ (k, a) :: l2) ->
  exists c',
    (LRUCache.on_nodes (LRUCacheNode.unlink a);;
     n ← LRUCache.on_nodes (LRUCacheNode.load a);
     LRUCache.del_data (LRUCacheNode.key n)) c = (Ok tt, c')
    /\ lru_inv c' (l1 ++ l2)
    /\ LRUCache.data c' = delete k (LRUCache.data c)
    /\ LRUCache.max_size c' = LRUCache.max_size c
    /\ LRUCache.sentinel c' = LRUCache.sentinel c
    /\ LRUCache.next_id c' = LRUCache.next_id c.
Proof.
  intros [Hsh Hd Hf Hm Hsz].
  destruct (shape_unlink _ _ _ _ _ _ Hsh) as (h' & Hun & Hsh' & K' & V').
  assert (exists nd, h' !! a = Some nd /\ LRUCacheNode.key nd = Some k)
    as (nd & Hnd & Hkey).
  { destruct (shape_nodes _ _ _ Hsh k a) as [Hk _].
    { rewrite elem_of_app, elem_of_cons. tauto. }
    rewrite <- K' in Hk. unfold fkey in Hk.
    destruct (h' !! a) as [nd|]; [|done]. injection Hk as Hk. eauto. }
  assert (LRUCache.data c !! k = Some a) as Hka.
  { rewrite Hd. apply elem_of_list_to_map_1; [apply Hsh|].
    rewrite elem_of_app, elem_of_cons. tauto. }
  eexists. split.
  { unfold mbind, M_bind.
    rewrite (on_nodes_ok _ _ _ _ Hun).
    rewrite (on_nodes_ok _ (LRUCache.with_nodes h' c) nd h')
      by (by apply load_Some).
    rewrite Hkey. unfold LRUCache.del_data. cbn [LRUCache.data LRUCache.with_nodes].
    rewrite Hka. reflexivity. }
  cbn. split; [|done].
  constructor; cbn.
  - exact Hsh'.
  - rewrite Hd. apply delete_list_to_map_middle, Hsh.
  - intros b Hb. apply Hf. rewrite fmap_app, fmap_cons.
    rewrite fmap_app in Hb. simpl.
    rewrite elem_of_cons, elem_of_app in Hb.
    rewrite elem_of_cons, elem_of_app, elem_of_cons. tauto.
  - exact Hm.
  - rewrite length_app in *. simpl in Hsz. lia.
Qed.

Lemma elem_of_removelast {A} (L : list A) x : x ∈ removelast L -> x ∈ L.
Proof.
  induction L as [|a L IH]; [done|]. destruct L as [|b L].
  - by intros ?%elem_of_nil.
  - change (removelast (a :: b :: L)) with (a :: removelast (b :: L)).
    intros [->|?]%elem_of_cons; [by left|right; by apply IH].
Qed.

Lemma elem_of_tail {A} (L : list A) x : x ∈ tail L -> x ∈ L.
Proof. destruct L; simpl; [done|]. by right. Qed.

(** A new object leaves the circle as it is. *)
Lemma shape_alloc s h l node nd :
  lru_shape s h l -> node ∉ s :: l.*2 ->
  lru_shape s (<[node := nd]> h) l.
Proof.
  intros [Hk Ha Hl Hn] Hnode.
  assert (forall b, b ∈ s :: l.*2 -> <[node := nd]> h !! b = h !! b) as Hsame.
  { intros b Hb. apply lookup_insert_ne. by intros ->. }
  assert (forall b, b ∈ s :: l.*2 ++ [s] -> b ∈ s :: l.*2) as Hpath.
  { intros b. rewrite !elem_of_cons, elem_of_app, list_elem_of_singleton. tauto. }
  constructor; [done|done| |].
  - intros x y Hin. destruct (Hl x y Hin) as [E1 E2].
    apply adjacent_ends in Hin as [Hx Hy].
    apply elem_of_removelast, Hpath in Hx. apply elem_of_tail, Hpath in Hy.
    unfold fnext, fprev in *. by rewrite !Hsame.
  - intros k a Hin. destruct (Hn k a Hin) as [E1 E2].
    assert (a ∈ s :: l.*2) as Ha'.
    { right. apply list_elem_of_fmap. by exists (k, a). }
    unfold fkey, fvalue in *. by rewrite !Hsame.
Qed.

(** The last statements of [put]: a new node for the entry goes to the
    front of the circle and into [data]. *)
Lemma lru_insert_front c l k v :
  lru_inv c l -> k ∉ l.*1 ->
  (Z.of_nat (length l) < LRUCache.max_size c)%Z ->
  exists c',
    (node ← gets LRUCache.next_id;
     modify (fun s => LRUCache.mk (LRUCache.data s) (LRUCache.max_size s)
                                  (LRUCache.sentinel s) (LRUCache.nodes s) (S node));;
     LRUCache.on_nodes (LRUCacheNode.__init__ node (Some k) (Some v));;
     s ← gets LRUCache.sentinel;
     LRUCache.on_nodes (LRUCacheNode.link_after node s);;
     modify (LRUCache.with_data (insert k node))) c = (Ok tt, c')
    /\ lru_inv c' ((k, LRUCache.next_id c) :: l)
    /\ LRUCache.data c' = <[k := LRUCache.next_id c]> (LRUCache.data c)
    /\ LRUCache.max_size c' = LRUCache.max_size c
    /\ LRUCache.sentinel c' = LRUCache.sentinel c
    /\ fvalue (LRUCache.nodes c') (LRUCache.next_id c) = Some (Some v).
Proof.
  intros [Hsh Hd Hf Hm Hsz] Hk Hlt.
  set (node := LRUCache.next_id c).
  set (nd := LRUCacheNode.mk (Some k) (Some v) node node).
  assert (node ∉ LRUCache.sentinel c :: l.*2) as Hnode.
  { intros Hin. apply Hf in Hin. subst node. lia. }
  pose proof (shape_alloc _ _ _ node nd Hsh Hnode) as Hsh1.
  rewrite not_elem_of_cons in Hnode. destruct Hnode as [Hns Hnl].
  destruct (shape_link_after _ _ _ k node v Hsh1 Hns Hnl Hk)
    as (h' & Hlk & Hsh' & K' & V').
  { unfold fkey. by rewrite lookup_insert_eq. }
  { unfold fvalue. by rewrite lookup_insert_eq. }
  eexists. split.
  { unfold mbind, M_bind, gets, modify, LRUCache.on_nodes, zoom,
      LRUCacheNode.__init__. cbn. fold node. fold nd. rewrite Hlk. reflexivity. }
  cbn. split; [|split; [done|split; [done|split; [done|]]]].
  - constructor; cbn.
    + exact Hsh'.
    + by rewrite Hd.
    + intros b Hb.
      assert (b = node \/ b ∈ LRUCache.sentinel c :: l.*2) as [->|Hb'].
      { rewrite !elem_of_cons in Hb. rewrite elem_of_cons. tauto. }
      * subst node. lia.
      * apply Hf in Hb'. subst node. lia.
    + exact Hm.
    + lia.
  - rewrite V'. unfold fvalue. by rewrite lookup_insert_eq.
Qed.

(** The node just before the sentinel is the node of the last entry. *)
Lemma shape_last s h l0 kv av :
  lru_shape s h (l0 ++ [(kv, av)]) ->
  fprev h s = Some av /\ fkey h av = Some (Some kv).
Proof.
  intros [Hk Ha Hl Hn]. split.
  - destruct (Hl av s) as [_ E]; [|done].
    assert (s :: (l0 ++ [(kv, av)]).*2 ++ [s] = (s :: l0.*2) ++ av :: [s]) as ->.
    { rewrite fmap_app. simpl. by rewrite <- app_assoc. }
    rewrite adjacent_app, elem_of_app. right. by left.
  - apply Hn. rewrite elem_of_app. right. by left.
Qed.

(** One turn of the eviction loop removes the last entry. *)
Lemma lru_evict_one c l0 kv av :
  lru_inv c (l0 ++ [(kv, av)]) ->
  exists c',
    LRUCache.evict_one c = (Ok tt, c')
    /\ lru_inv c' l0
    /\ LRUCache.data c' = delete kv (LRUCache.data c)
    /\ LRUCache.max_size c' = LRUCache.max_size c
    /\ LRUCache.sentinel c' = LRUCache.sentinel c
    /\ LRUCache.next_id c' = LRUCache.next_id c.
Proof.
  intros Hinv.
  destruct (shape_last _ _ _ _ _ (inv_shape _ _ Hinv)) as [Hprev _].
  destruct (lru_remove_entry _ _ _ _ _ Hinv) as (c' & Hrm & Hinv' & Hrest).
  rewrite app_nil_r in Hinv'.
  exists c'. split; [|done].
  unfold LRUCache.evict_one, mbind, M_bind, gets.
  unfold fprev in Hprev.
  destruct (LRUCache.nodes c !! LRUCache.sentinel c) as [sn|] eqn:Es; [|done].
  injection Hprev as Hprev.
  rewrite (on_nodes_ok _ c sn (LRUCache.nodes c)) by (by apply load_Some).
  rewrite Hprev.
  assert (LRUCache.with_nodes (LRUCache.nodes c) c = c) as -> by (by destruct c).
  exact Hrm.
Qed.

Lemma make_room_spec m (l : list (CacheKey * addr)) :
  (1 <= m)%Z -> (Z.of_nat (length l) <= m)%Z ->
  (Z.of_nat (length l) < m /\ make_room m l = l)%Z
  \/ (exists l0 kv av, l = l0 ++ [(kv, av)] /\ Z.of_nat (length l) = m
                       /\ make_room m l = l0).
Proof.
  intros Hm Hl. unfold make_room.
  destruct (Z.geb_spec (Z.of_nat (length l)) m) as [Hge|Hlt]; [right|left; done].
  destruct l as [|e l]; [simpl in *; lia|].
  destruct (snoc_of_cons e l) as (l0 & [kv av] & E).
  exists l0, kv, av. rewrite E, removelast_last. split; [done|].
  split; [|done]. rewrite <- E. lia.
Qed.

(** The eviction loop of [put]. *)
Lemma lru_evict_loop c l fuel :
  lru_inv c l -> 0 < fuel ->
  exists c',
    LRUCache.evict_loop fuel c = (Ok tt, c')
    /\ lru_inv c' (make_room (LRUCache.max_size c) l)
    /\ (Z.of_nat (length (make_room (LRUCache.max_size c) l))
        < LRUCache.max_size c)%Z
    /\ LRUCache.max_size c' = LRUCache.max_size c
    /\ LRUCache.sentinel c' = LRUCache.sentinel c
    /\ LRUCache.next_id c' = LRUCache.next_id c.
Proof.
  intros Hinv Hfuel.
  destruct (make_room_spec _ l (inv_max_size _ _ Hinv) (inv_size _ _ Hinv))
    as [[Hlt ->]|(l0 & kv & av & -> & Hfull & ->)].
  - exists c. split; [|done].
    destruct fuel; simpl; rewrite (lru_inv_size _ _ Hinv);
      by destruct (Z.geb_spec (Z.of_nat (length l)) (LRUCache.max_size c)); [lia|].
  - destruct (lru_evict_one _ _ _ _ Hinv)
      as (c' & Hev & Hinv' & Hd & Hm & Hs & Hn).
    rewrite length_app in Hfull. simpl in Hfull.
    exists c'. split; [|split; [done|split; [lia|done]]].
    destruct fuel as [|fuel]; [lia|]. simpl.
    rewrite (lru_inv_size _ _ Hinv).
    destruct (Z.geb_spec (Z.of_nat (length (l0 ++ [(kv, av)])))
                         (LRUCache.max_size c)) as [_|Hlt];
      [|rewrite length_app in Hlt; simpl in Hlt; lia].
    unfold mbind, M_bind. rewrite Hev.
    destruct fuel; simpl; rewrite (lru_inv_size _ _ Hinv'), Hm;
      by destruct (Z.geb_spec (Z.of_nat (length l0)) (LRUCache.max_size c));
        [lia|].
Qed.

Lemma make_room_keys m (l : list (CacheKey * addr)) k :
  k ∉ l.*1 -> k ∉ (make_room m l).*1.
Proof.
  unfold make_room. destruct (_ >=? _)%Z; [|done].
  intros Hk Hin. apply Hk.
  apply list_elem_of_fmap in Hin as (e & -> & He).
  apply list_elem_of_fmap. exists e. split; [done|].
  by apply elem_of_removelast.
Qed.

Lemma drop_key_keys (l : list (CacheKey * addr)) k : k ∉ (drop_key k l).*1.
Proof.
  intros (e & -> & He)%list_elem_of_fmap.
  apply list_elem_of_filter in He as [? _]. done.
Qed.

(** [put]: the old entry of the key goes, then the least recently used
    entry if the cache is full, and the new entry comes first. *)
Lemma lru_put_spec c l k v :
  lru_inv c l ->
  exists c',
    LRUCache.put k v c = (Ok tt, c')
    /\ lru_inv c' ((k, LRUCache.next_id c)
                     :: make_room (LRUCache.max_size c) (drop_key k l))
    /\ LRUCache.max_size c' = LRUCache.max_size c
    /\ LRUCache.sentinel c' = LRUCache.sentinel c
    /\ fvalue (LRUCache.nodes c') (LRUCache.next_id c) = Some (Some v).
Proof.
  intros Hinv.
  assert (exists c1,
    (match LRUCache.data c !! k with
     | Some node =>
       LRUCache.on_nodes (LRUCacheNode.unlink node);;
       n ← LRUCache.on_nodes (LRUCacheNode.load node);
       LRUCache.del_data (LRUCacheNode.key n)
     | None => mret tt
     end) c = (Ok tt, c1)
    /\ lru_inv c1 (drop_key k l)
    /\ LRUCache.max_size c1 = LRUCache.max_size c
    /\ LRUCache.sentinel c1 = LRUCache.sentinel c
    /\ LRUCache.next_id c1 = LRUCache.next_id c)
    as (c1 & Hstep1 & Hinv1 & Hm1 & Hs1 & Hn1).
  { destruct (LRUCache.data c !! k) as [a|] eqn:Ek.
    - destruct (lru_inv_lookup_Some _ _ _ _ Hinv Ek) as (l1 & l2 & ->).
      destruct (lru_remove_entry _ _ _ _ _ Hinv) as (c1 & H1 & H2 & _ & H3).
      rewrite drop_key_middle by apply Hinv. eauto.
    - exists c. rewrite drop_key_absent by (by eapply lru_inv_lookup_None).
      done. }
  destruct (lru_evict_loop c1 _ (S (size (LRUCache.data c1))) Hinv1)
    as (c2 & Hloop & Hinv2 & Hlt & Hm2 & Hs2 & Hn2); [lia|].
  rewrite Hm1 in Hinv2, Hlt.
  destruct (lru_insert_front c2 _ k v Hinv2) as (c3 & Hins & Hinv3 & Hd3 & Hm3 & Hs3 & Hv3).
  { apply make_room_keys, drop_key_keys. }
  { by rewrite Hm2, Hm1. }
  rewrite Hn2, Hn1 in Hinv3, Hv3.
  exists c3. split; [|split; [done|split; [congruence|split; [congruence|done]]]].
  unfold LRUCache.put.
  unfold mbind at 1. unfold M_bind at 1. unfold gets at 1.
  unfold mbind at 1. unfold M_bind at 1. rewrite Hstep1.
  unfold mbind at 1. unfold M_bind at 1. unfold gets at 1.
  unfold mbind at 1. unfold M_bind at 1. rewrite Hloop.
  exact Hins.
Qed.

Lemma lru_get_miss c w key :
  LRUCache.data c !! key = None ->
  LRUCache.get key (c, w) = (Ok None, (c, w)).
Proof.
  intros H. unfold LRUCache.get, mbind, M_bind, gets. cbn [fst]. by rewrite H.
Qed.

(** [get] of a key that has an entry: a stale entry is dropped, a live
    one moves to the front. *)
Lemma lru_get_hit c w l1 key a l2 :
  lru_inv c (l1 ++ (key, a) :: l2) ->
  let t := readings w (ticks w) in
  let w' := mkClock (readings w) (S (ticks w)) in
  exists v,
    fvalue (LRUCache.nodes c) a = Some (Some v)
    /\ ((Qle_bool (Answer.expiration v) t = true
         /\ exists c',
              LRUCache.get key (c, w) = (Ok None, (c', w'))
              /\ lru_inv c' (l1 ++ l2)
              /\ LRUCache.data c' = delete key (LRUCache.data c)
              /\ LRUCache.max_size c' = LRUCache.max_size c)
        \/ (Qle_bool (Answer.expiration v) t = false
            /\ exists c',
                 LRUCache.get key (c, w) = (Ok (Some v), (c', w'))
                 /\ lru_inv c' ((key, a) :: l1 ++ l2)
                 /\ LRUCache.data c' = LRUCache.data c
                 /\ LRUCache.max_size c' = LRUCache.max_size c)).
Proof.
  intros Hinv t w'. pose proof Hinv as [Hsh Hd Hf Hm Hsz].
  destruct (shape_unlink _ _ _ _ _ _ Hsh) as (h' & Hun & Hsh' & K' & V').
  destruct (shape_nodes _ _ _ Hsh key a) as [Hk [v Hv]].
  { rewrite elem_of_app, elem_of_cons. tauto. }
  assert (exists nd, h' !! a = Some nd /\ LRUCacheNode.key nd = Some key
                     /\ LRUCacheNode.value nd = Some v)
    as (nd & Hnd & Hkey & Hval).
  { pose proof (K' a) as E1. pose proof (V' a) as E2.
    rewrite Hk in E1. rewrite Hv in E2. unfold fkey, fvalue in E1, E2.
    destruct (h' !! a) as [nd|]; [|done].
    injection E1 as E1. injection E2 as E2. eauto. }
  assert (LRUCache.data c !! key = Some a) as Hka.
  { rewrite Hd. apply elem_of_list_to_map_1; [apply Hsh|].
    rewrite elem_of_app, elem_of_cons. tauto. }
  exists v. split; [done|].
  assert (forall k : option Answer.t -> M (LRUCache.t * clock) (option Answer.t),
    LRUCache.get key (c, w)
    = (if Qle_bool (Answer.expiration v) t
       then with_clock (LRUCache.del_data (Some key));; mret None
       else sentinel ← gets (fun s => LRUCache.sentinel s.1);
            with_clock (LRUCache.on_nodes (LRUCacheNode.link_after a sentinel));;
            mret (Some v)) (LRUCache.with_nodes h' c, w')) as Hget.
  { intros _. unfold LRUCache.get.
    unfold mbind at 1. unfold M_bind at 1. unfold gets at 1. cbn [fst].
    rewrite Hka.
    unfold mbind at 1. unfold M_bind at 1.
    rewrite (with_clock_ok _ c w tt (LRUCache.with_nodes h' c))
      by (by apply on_nodes_ok).
    unfold mbind at 1. unfold M_bind at 1.
    rewrite (with_clock_ok _ (LRUCache.with_nodes h' c) w nd
                           (LRUCache.with_nodes h' c))
      by (by apply on_nodes_load).
    rewrite Hval, Hkey.
    unfold mbind at 1. unfold M_bind at 1. unfold now at 1. done. }
  specialize (Hget (fun _ => mret None)).
  destruct (NoDup_keys_middle _ _ _ _ (shape_keys _ _ _ Hsh)) as [_ Hknew].
  destruct (Qle_bool (Answer.expiration v) t) eqn:Et; [left|right];
    (split; [done|]).
  - eexists. split.
    { rewrite Hget. unfold mbind, M_bind.
      rewrite (with_clock_ok _ (LRUCache.with_nodes h' c) w' tt
                 (LRUCache.with_data (delete key) (LRUCache.with_nodes h' c))).
      - reflexivity.
      - unfold LRUCache.del_data. cbn [LRUCache.data LRUCache.with_nodes].
        by rewrite Hka. }
    split; [|done]. constructor; cbn.
    + exact Hsh'.
    + rewrite Hd. apply delete_list_to_map_middle, Hsh.
    + intros b Hb. apply Hf. rewrite fmap_app, fmap_cons.
      rewrite fmap_app in Hb. simpl.
      rewrite elem_of_cons, elem_of_app in Hb.
      rewrite elem_of_cons, elem_of_app, elem_of_cons. tauto.
    + exact Hm.
    + rewrite length_app in *. simpl in Hsz. lia.
  - pose proof (shape_addrs _ _ _ Hsh) as Haddrs.
    rewrite fmap_app, fmap_cons in Haddrs. simpl in Haddrs.
    apply NoDup_cons in Haddrs as [Hs Haddrs].
    apply NoDup_app in Haddrs as (_ & Hdis & Haddrs).
    apply NoDup_cons in Haddrs as [Ha2 _].
    rewrite not_elem_of_app, not_elem_of_cons in Hs.
    destruct (shape_link_after _ _ _ key a v Hsh') as (h'' & Hlk & Hsh'' & _).
    { intros ->. tauto. }
    { rewrite fmap_app, not_elem_of_app. split; [|done].
      intros Hin. apply (Hdis a Hin). by left. }
    { done. }
    { by rewrite K'. }
    { by rewrite V'. }
    eexists. split.
    { rewrite Hget. unfold mbind, M_bind, gets. cbn [fst LRUCache.sentinel
        LRUCache.with_nodes].
      rewrite (with_clock_ok _ (LRUCache.with_nodes h' c) w' tt
                 (LRUCache.with_nodes h'' (LRUCache.with_nodes h' c)))
        by (by apply on_nodes_ok).
      reflexivity. }
    split; [|done]. constructor; cbn.
    + exact Hsh''.
    + rewrite Hd. apply list_to_map_middle, Hsh.
    + intros b Hb. apply Hf. rewrite fmap_app, fmap_cons.
      rewrite fmap_app in Hb. simpl.
      rewrite !elem_of_cons, elem_of_app in Hb.
      rewrite elem_of_cons, elem_of_app, elem_of_cons. tauto.
    + exact Hm.
    + rewrite length_app in Hsz. cbn [length] in Hsz.
      change (Z.of_nat (length ((key, a) :: l1 ++ l2))
              <= LRUCache.max_size c)%Z.
      cbn [length]. rewrite length_app. lia.
Qed.

(** ** Runs of the LRU cache *)

Lemma lru_init_inv max_size :
  lru_inv (LRUCache.__init__ max_size) []
  /\ LRUCache.max_size (LRUCache.__init__ max_size) = Z.max max_size 1.
Proof.
  split.
  - constructor; cbn.
    + constructor; cbn.
      * constructor.
      * apply NoDup_singleton.
      * intros x y [[= -> ->]|?%elem_of_nil]%elem_of_cons; [|done].
        unfold fnext, fprev. by rewrite lookup_insert_eq.
      * by intros k a ?%elem_of_nil.
    + done.
    + intros a ->%list_elem_of_singleton. lia.
    + destruct (Z.ltb_spec max_size 1); lia.
    + destruct (Z.ltb_spec max_size 1); lia.
  - cbn. destruct (Z.ltb_spec max_size 1); lia.
Qed.

Lemma last_use_snoc ops op k :
  last_use (ops ++ [op]) k
  = if decide (lru_key op = k) then Some (length ops) else last_use ops k.
Proof.
  unfold last_use. rewrite rev_unit. simpl. by rewrite length_rev.
Qed.

Lemma last_use_lt ops k t : last_use ops k = Some t -> t < length ops.
Proof.
  unfold last_use. rewrite <- (length_rev ops).
  induction (rev ops) as [|op rops IH]; simpl; [done|].
  destruct (decide (lru_key op = k)).
  - intros [= <-]. lia.
  - intros H%IH. lia.
Qed.

(** [last_use] is the position of the last operation on the key. *)
Lemma last_use_spec ops k t :
  last_use ops k = Some t <->
  (lru_key <$> ops !! t) = Some k
  /\ forall j, t < j -> (lru_key <$> ops !! j) <> Some k.
Proof.
  revert t. induction ops as [|op ops IH] using rev_ind; intros t.
  - unfold last_use. simpl. split; [done|]. by intros [? _].
  - rewrite last_use_snoc. destruct (decide (lru_key op = k)) as [<-|Hne].
    + split.
      * intros [= <-]. split.
        -- rewrite lookup_app_r, Nat.sub_diag by done. done.
        -- intros j Hj. rewrite lookup_ge_None_2; [done|].
           rewrite length_app. simpl. lia.
      * intros [Ht Hlast].
        destruct (lt_eq_lt_dec t (length ops)) as [[Hlt| ->]|Hgt]; [|done|].
        -- exfalso. apply (Hlast (length ops) Hlt).
           rewrite lookup_app_r, Nat.sub_diag by done. done.
        -- rewrite lookup_ge_None_2 in Ht; [done|].
           rewrite length_app. simpl. lia.
    + rewrite IH. split.
      * intros [Ht Hlast].
        assert (t < length ops) as Hlt.
        { apply lookup_lt_is_Some. destruct (ops !! t); [eauto|done]. }
        split; [by rewrite lookup_app_l|].
        intros j Hj. destruct (lt_eq_lt_dec j (length ops)) as [[?| ->]|?].
        -- rewrite lookup_app_l by done. by apply Hlast.
        -- rewrite lookup_app_r, Nat.sub_diag by done. simpl. congruence.
        -- rewrite lookup_ge_None_2; [done|]. rewrite length_app. simpl. lia.
      * intros [Ht Hlast].
        assert (t < length ops) as Hlt.
        { destruct (lt_eq_lt_dec t (length ops)) as [[?| ->]|?]; [done| |].
          - rewrite lookup_app_r, Nat.sub_diag in Ht by done.
            simpl in Ht. congruence.
          - rewrite lookup_ge_None_2 in Ht; [done|].
            rewrite length_app. simpl. lia. }
        split; [by rewrite lookup_app_l in Ht|].
        intros j Hj Hk. apply (Hlast j Hj).
        assert (j < length ops) as Hjl.
        { apply lookup_lt_is_Some. destruct (ops !! j); [eauto|done]. }
        by rewrite lookup_app_l.
Qed.

Lemma StronglySorted_sublist {A} (R : relation A) l1 l2 :
  l1 `sublist_of` l2 -> StronglySorted R l2 -> StronglySorted R l1.
Proof.
  induction 1 as [|x l1 l2 Hsub IH|x l1 l2 Hsub IH]; [done| |].
  - rewrite !StronglySorted_cons, !Forall_forall. intros [Hx Hs].
    split; [|by apply IH]. intros y Hy. apply Hx. by eapply elem_of_sublist.
  - rewrite StronglySorted_cons. intros [_ Hs]. by apply IH.
Qed.

Lemma StronglySorted_impl_elem {A} (R R' : relation A) l :
  (forall x y, x ∈ l -> y ∈ l -> R x y -> R' x y) ->
  StronglySorted R l -> StronglySorted R' l.
Proof.
  induction l as [|a l IH]; intros Himp; [constructor|].
  rewrite !StronglySorted_cons, !Forall_forall. intros [Ha Hs]. split.
  - intros y Hy. apply Himp; [by left|by right|by apply Ha].
  - apply IH; [|done]. intros x y Hx Hy. apply Himp; by right.
Qed.

(** After one more operation, the entries that are kept and are not for
    its key are still in order. *)
Lemma recency_keep ops op (l l' : list (CacheKey * addr)) :
  recency ops l -> lru_key op ∉ l'.*1 -> l'.*1 `sublist_of` l.*1 ->
  recency (ops ++ [op]) l'.
Proof.
  intros [Hs Hu] Hk Hsub. split.
  - eapply StronglySorted_impl_elem;
      [|by eapply StronglySorted_sublist].
    intros x y Hx Hy (t1 & t2 & H1 & H2 & Hlt). exists t1, t2.
    rewrite !last_use_snoc, !decide_False by (intros <-; done). done.
  - intros k Hin. rewrite last_use_snoc, decide_False by (intros <-; done).
    apply Hu. by eapply elem_of_sublist.
Qed.

(** The key of the operation comes first. *)
Lemma recency_front ops op (l l' : list (CacheKey * addr)) a :
  recency ops l -> lru_key op ∉ l'.*1 -> l'.*1 `sublist_of` l.*1 ->
  recency (ops ++ [op]) ((lru_key op, a) :: l').
Proof.
  intros Hr Hk Hsub.
  destruct (recency_keep ops op l l' Hr Hk Hsub) as [Hs Hu].
  split.
  - rewrite fmap_cons. simpl. apply StronglySorted_cons. split; [|done].
    apply Forall_forall. intros k Hin.
    destruct (Hu k Hin) as [t Ht]. exists (length ops), t.
    split; [by rewrite last_use_snoc, decide_True|]. split; [done|].
    rewrite last_use_snoc, decide_False in Ht by (intros <-; done).
    by apply last_use_lt in Ht.
  - intros k [->|Hin]%elem_of_cons; [|by apply Hu].
    rewrite last_use_snoc, decide_True by done. eauto.
Qed.

Lemma sublist_removelast {A} (l : list A) : removelast l `sublist_of` l.
Proof.
  induction l as [|a l IH]; [done|]. destruct l as [|b l].
  - simpl. by apply sublist_cons.
  - change (removelast (a :: b :: l)) with (a :: removelast (b :: l)).
    by apply sublist_skip.
Qed.

Lemma make_room_sublist m (l : list (CacheKey * addr)) :
  make_room m l `sublist_of` l.
Proof.
  unfold make_room. destruct (_ >=? _)%Z; [apply sublist_removelast|done].
Qed.

(** One operation keeps the cache well-formed and the recency list in
    order of last use. *)
Lemma lru_step_spec ops op c w l :
  lru_inv c l -> recency ops l ->
  exists c' w' l',
    lru_step op (c, w) = (Ok tt, (c', w'))
    /\ lru_inv c' l' /\ recency (ops ++ [op]) l'
    /\ LRUCache.max_size c' = LRUCache.max_size c.
Proof.
  intros Hinv Hr. destruct op as [key|key value]; simpl.
  - destruct (LRUCache.data c !! key) as [a|] eqn:Ek.
    + destruct (lru_inv_lookup_Some _ _ _ _ Hinv Ek) as (l1 & l2 & ->).
      pose proof (NoDup_keys_middle _ _ _ _ (shape_keys _ _ _ (inv_shape _ _ Hinv)))
        as [_ Hk].
      assert ((l1 ++ l2).*1 `sublist_of` (l1 ++ (key, a) :: l2).*1) as Hsub.
      { rewrite !fmap_app, fmap_cons. apply sublist_app; [done|].
        by apply sublist_cons. }
      destruct (lru_get_hit c w _ _ _ _ Hinv)
        as (v & _ & [(_ & c' & Hg & Hinv' & _ & Hm)|(_ & c' & Hg & Hinv' & _ & Hm)]).
      * exists c', (mkClock (readings w) (S (ticks w))), (l1 ++ l2).
        split; [unfold mbind, M_bind; by rewrite Hg|].
        split; [done|]. split; [|done].
        by apply (recency_keep ops (LruGet key) _ _ Hr).
      * exists c', (mkClock (readings w) (S (ticks w))), ((key, a) :: l1 ++ l2).
        split; [unfold mbind, M_bind; by rewrite Hg|].
        split; [done|]. split; [|done].
        by apply (recency_front ops (LruGet key) _ _ a Hr).
    + exists c, w, l. split.
      { unfold mbind, M_bind. by rewrite lru_get_miss. }
      split; [done|]. split; [|done].
      apply (recency_keep ops (LruGet key) _ _ Hr); [|done].
      by eapply lru_inv_lookup_None.
  - destruct (lru_put_spec c l key value Hinv) as (c' & Hp & Hinv' & Hm & _).
    exists c', w, ((key, LRUCache.next_id c)
                     :: make_room (LRUCache.max_size c) (drop_key key l)).
    split; [by apply with_clock_ok|]. split; [done|]. split; [|done].
    apply (recency_front ops (LruPut key value) _ _ _ Hr).
    + apply make_room_keys, drop_key_keys.
    + apply fmap_sublist. etrans; [apply make_room_sublist|].
      apply sublist_filter.
Qed.

Lemma lru_run_spec ops2 : forall ops1 c w l,
  lru_inv c l -> recency ops1 l ->
  exists c' w' l',
    lru_run ops2 (c, w) = (Ok tt, (c', w'))
    /\ lru_inv c' l' /\ recency (ops1 ++ ops2) l'
    /\ LRUCache.max_size c' = LRUCache.max_size c.
Proof.
  induction ops2 as [|op ops2 IH]; intros ops1 c w l Hinv Hr.
  - exists c, w, l. rewrite app_nil_r. done.
  - destruct (lru_step_spec ops1 op c w l Hinv Hr)
      as (c1 & w1 & l1 & Hstep & Hinv1 & Hr1 & Hm1).
    destruct (IH (ops1 ++ [op]) c1 w1 l1 Hinv1 Hr1)
      as (c2 & w2 & l2 & Hrun & Hinv2 & Hr2 & Hm2).
    exists c2, w2, l2. split.
    { simpl. unfold mbind, M_bind. by rewrite Hstep. }
    rewrite <- app_assoc in Hr2. simpl in Hr2.
    split; [done|]. split; [done|]. congruence.
Qed.

Lemma lru_inv_dom c l :
  lru_inv c l -> dom (LRUCache.data c) = list_to_set l.*1.
Proof. intros H. rewrite (inv_data _ _ H). apply dom_list_to_map_L. Qed.

(** What a [put] does to a well-formed cache: it succeeds, the cache stays
    within its capacity, and an entry other than the old one of the key is
    lost only when the cache is full; that entry is the one of the node
    just before the sentinel, which every other entry was used after. *)
Lemma lru_put_effect ops c l key value :
  lru_inv c l -> recency ops l ->
  exists c',
    LRUCache.put key value c = (Ok tt, c')
    /\ LRUCache.max_size c' = LRUCache.max_size c
    /\ (Z.of_nat (size (LRUCache.data c')) <= LRUCache.max_size c)%Z
    /\ (is_Some (LRUCache.data c !! key)
        \/ (Z.of_nat (size (LRUCache.data c)) < LRUCache.max_size c)%Z ->
        dom (LRUCache.data c') = {[key]} ∪ dom (LRUCache.data c))
    /\ (LRUCache.data c !! key = None ->
        Z.of_nat (size (LRUCache.data c)) = LRUCache.max_size c ->
        exists victim node,
          fprev (LRUCache.nodes c) (LRUCache.sentinel c) = Some node
          /\ fkey (LRUCache.nodes c) node = Some (Some victim)
          /\ LRUCache.data c !! victim = Some node
          /\ dom (LRUCache.data c')
             = {[key]} ∪ (dom (LRUCache.data c) ∖ {[victim]})
          /\ forall k, k ∈ dom (LRUCache.data c) -> k <> victim ->
                       later ops k victim).
Proof.
  intros Hinv Hr.
  destruct (lru_put_spec c l key value Hinv) as (c' & Hp & Hinv' & Hm & _).
  exists c'. split; [done|]. split; [done|].
  pose proof (lru_inv_size _ _ Hinv) as Hsize.
  pose proof (lru_inv_dom _ _ Hinv) as Hdom.
  pose proof (lru_inv_dom _ _ Hinv') as Hdom'.
  rewrite fmap_cons, list_to_set_cons in Hdom'. simpl in Hdom'.
  split; [|split].
  - rewrite (lru_inv_size _ _ Hinv').
    pose proof (inv_size _ _ Hinv') as Hsz'. by rewrite Hm in Hsz'.
  - intros Hcase. rewrite Hdom', Hdom.
    destruct (LRUCache.data c !! key) as [a|] eqn:Ek.
    + destruct (lru_inv_lookup_Some _ _ _ _ Hinv Ek) as (l1 & l2 & ->).
      rewrite drop_key_middle by apply Hinv.
      pose proof (inv_size _ _ Hinv) as Hsz.
      destruct (make_room_spec (LRUCache.max_size c) (l1 ++ l2)
                  (inv_max_size _ _ Hinv)) as [[_ ->]|(? & ? & ? & _ & Hfull & _)].
      { rewrite length_app in *. simpl in Hsz. lia. }
      * rewrite !fmap_app, fmap_cons, !list_to_set_app_L, list_to_set_cons.
        clear. set_solver.
      * rewrite length_app in *. simpl in Hsz. lia.
    + destruct Hcase as [[? ?]|Hlt]; [done|].
      rewrite drop_key_absent by (by eapply lru_inv_lookup_None).
      destruct (make_room_spec (LRUCache.max_size c) l
                  (inv_max_size _ _ Hinv) (inv_size _ _ Hinv))
        as [[_ ->]|(? & ? & ? & _ & Hfull & _)]; [done|lia].
  - intros Ek Hfull.
    rewrite drop_key_absent in Hdom' by (by eapply lru_inv_lookup_None).
    destruct (make_room_spec (LRUCache.max_size c) l
                (inv_max_size _ _ Hinv) (inv_size _ _ Hinv))
      as [[Hlt _]|(l0 & kv & av & -> & _ & Hroom)]; [lia|].
    rewrite Hroom in Hdom'.
    destruct (shape_last _ _ _ _ _ (inv_shape _ _ Hinv)) as [Hprev Hkey].
    pose proof (shape_keys _ _ _ (inv_shape _ _ Hinv)) as Hnd.
    exists kv, av. split; [done|]. split; [done|]. split.
    { rewrite (inv_data _ _ Hinv). apply elem_of_list_to_map_1; [done|].
      rewrite elem_of_app. right. by left. }
    rewrite fmap_app in Hnd. apply NoDup_app in Hnd as (_ & Hdis & _).
    assert (kv ∉ l0.*1) as Hkv.
    { intros Hin. apply (Hdis kv Hin). by left. }
    split.
    + rewrite Hdom', Hdom, fmap_app, list_to_set_app_L. simpl.
      assert (kv ∉ (list_to_set l0.*1 : gset CacheKey)) as Hkv'
        by (by apply not_elem_of_list_to_set).
      clear -Hkv'. set_solver.
    + intros k Hk Hne. rewrite Hdom, fmap_app, list_to_set_app_L in Hk.
      destruct Hr as [Hs _]. rewrite fmap_app in Hs.
      eapply StronglySorted_app_1_elem_of; [exact Hs| |by left].
      simpl in Hk. apply elem_of_union in Hk as [Hk|Hk].
      * by apply elem_of_list_to_set in Hk.
      * clear -Hk Hne. set_solver.
Qed.

(** C3.  After any sequence of [get] and [put] on a new cache of capacity
    [max_size] (taken as 1 when below), the run has raised nothing and the
    map holds at most that many entries; a further [put] keeps the bound,
    and evicts an entry only when the key is new and the cache is full.
    The evicted entry is the one of the node just before the sentinel, and
    every other entry of the cache had its last [get] or [put] later. *)
Theorem lru_bound_and_victim (max_size : Z) (ops : list lru_op) (w : clock) :
  exists c w',
    lru_run ops (LRUCache.__init__ max_size, w) = (Ok tt, (c, w'))
    /\ LRUCache.max_size c = Z.max max_size 1
    /\ (Z.of_nat (size (LRUCache.data c)) <= Z.max max_size 1)%Z
    /\ forall key value,
       exists c',
         LRUCache.put key value c = (Ok tt, c')
         /\ (Z.of_nat (size (LRUCache.data c')) <= Z.max max_size 1)%Z
         /\ (is_Some (LRUCache.data c !! key)
             \/ (Z.of_nat (size (LRUCache.data c)) < Z.max max_size 1)%Z ->
             dom (LRUCache.data c') = {[key]} ∪ dom (LRUCache.data c))
         /\ (LRUCache.data c !! key = None ->
             Z.of_nat (size (LRUCache.data c)) = Z.max max_size 1 ->
             exists victim node,
               fprev (LRUCache.nodes c) (LRUCache.sentinel c) = Some node
               /\ fkey (LRUCache.nodes c) node = Some (Some victim)
               /\ LRUCache.data c !! victim = Some node
               /\ dom (LRUCache.data c')
                  = {[key]} ∪ (dom (LRUCache.data c) ∖ {[victim]})
               /\ forall k, k ∈ dom (LRUCache.data c) -> k <> victim ->
                            later ops k victim).
Proof.
  destruct (lru_init_inv max_size) as [Hinv0 Hm0].
  destruct (lru_run_spec ops [] _ w [] Hinv0) as (c & w' & l & Hrun & Hinv & Hr & Hm).
  { split; [constructor|]. by intros k ?%elem_of_nil. }
  simpl in Hr. rewrite Hm0 in Hm.
  exists c, w'. split; [done|]. split; [done|]. split.
  { rewrite (lru_inv_size _ _ Hinv), <- Hm. apply Hinv. }
  intros key value.
  destruct (lru_put_effect ops c l key value Hinv Hr)
    as (c' & Hp & _ & Hb & Hkeep & Hevict).
  rewrite Hm in Hb, Hkeep, Hevict.
  exists c'. done.
Qed.

Lemma lru_bound_and_victim_witness :
  exists c',
    LRUCache.put (key_of "c") (answer_until 100) lru_example = (Ok tt, c')
    /\ dom (LRUCache.data c')
       = {[key_of "c"]} ∪ (dom (LRUCache.data lru_example) ∖ {[key_of "b"]})
    /\ later lru_example_ops (key_of "a") (key_of "b").
Proof.
  destruct (lru_bound_and_victim 2 lru_example_ops (clock_at 0))
    as (c & w' & Hrun & _ & _ & Hput).
  assert (c = lru_example) as ->.
  { unfold lru_example. by rewrite Hrun. }
  destruct (Hput (key_of "c") (answer_until 100))
    as (c' & Hp & _ & _ & Hevict).
  destruct Hevict as (victim & node & Hprev & Hkey & _ & Hdom & Hlater).
  - by vm_compute.
  - by vm_compute.
  - vm_compute in Hprev. injection Hprev as <-.
    vm_compute in Hkey. injection Hkey as <-.
    exists c'. split; [exact Hp|]. split; [exact Hdom|].
    apply Hlater; [|discriminate].
    apply elem_of_dom. exists 1. vm_compute. reflexivity.
Defined.

(** ** Freshness of what the caches return *)

Lemma maybe_clean_clock self w :
  exists n, (Cache._maybe_clean self w).2 = mkClock (readings w) (ticks w + S n).
Proof.
  unfold Cache._maybe_clean. simpl.
  destruct (Qle_bool _ _); simpl.
  - exists 1. f_equal. lia.
  - exists 0. f_equal. lia.
Qed.

Lemma Qle_bool_false x y : Qle_bool x y = false <-> ~ (x <= y)%Q.
Proof.
  rewrite <- Qle_bool_iff. destruct (Qle_bool x y); split; try done.
Qed.

Lemma fold_delete_lookup (ks : list CacheKey) : forall (m : gmap CacheKey Answer.t) k,
  fold_left (fun d k => delete k d) ks m !! k
  = if decide (k ∈ ks) then None else m !! k.
Proof.
  induction ks as [|k0 ks IH]; intros m k; simpl; [done|].
  rewrite IH. destruct (decide (k ∈ ks)) as [Hin|Hnin].
  - by rewrite decide_True by (by right).
  - destruct (decide (k = k0)) as [->|Hne].
    + rewrite decide_True by (by left). apply lookup_delete_eq.
    + rewrite decide_False by (rewrite elem_of_cons; tauto).
      by apply lookup_delete_ne.
Qed.

Lemma keys_to_delete_elem_of now (items : list (CacheKey * Answer.t)) k :
  k ∈ Cache.keys_to_delete now items
  <-> exists v, (k, v) ∈ items /\ Qle_bool (Answer.expiration v) now = true.
Proof.
  unfold Cache.keys_to_delete.
  assert (forall acc,
    k ∈ fold_left (fun acc kv => if Qle_bool (Answer.expiration kv.2) now
                                 then acc ++ [kv.1] else acc) items acc
    <-> k ∈ acc
        \/ exists v, (k, v) ∈ items /\ Qle_bool (Answer.expiration v) now = true)
    as Hgen.
  { induction items as [|[k0 v0] items IH]; intros acc; simpl.
    - split; [by left|]. intros [?|(v & Hin & _)]; [done|].
      by apply elem_of_nil in Hin.
    - rewrite IH. destruct (Qle_bool (Answer.expiration v0) now) eqn:E.
      + rewrite elem_of_app, list_elem_of_singleton. split.
        * intros [[?| ->]|(v & Hin & Hv)]; [by left| |].
          -- right. exists v0. split; [by left|done].
          -- right. exists v. split; [by right|done].
        * intros [?|(v & Hin & Hv)]; [by left; left|].
          apply elem_of_cons in Hin as [[= -> ->]|Hin]; [left; by right|].
          right. eauto.
      + split.
        * intros [?|(v & Hin & Hv)]; [by left|].
          right. exists v. split; [by right|done].
        * intros [?|(v & Hin & Hv)]; [by left|].
          apply elem_of_cons in Hin as [[= -> ->]|Hin]; [congruence|].
          right. eauto. }
  rewrite Hgen. split; [|by right]. intros [Hin|?]; [|done].
  by apply elem_of_nil in Hin.
Qed.

(** The map after [_maybe_clean]: when the deadline has been reached, the
    entries that are stale at the reading are gone and the others are
    kept; before the deadline the map is as it was. *)
Lemma maybe_clean_lookup self w k :
  Cache.data (Cache._maybe_clean self w).1 !! k
  = if Qle_bool (Cache.next_cleaning self) (readings w (ticks w))
    then match Cache.data self !! k with
         | Some v => if Qle_bool (Answer.expiration v) (readings w (ticks w))
                     then None else Some v
         | None => None
         end
    else Cache.data self !! k.
Proof.
  unfold Cache._maybe_clean. simpl.
  destruct (Qle_bool (Cache.next_cleaning self) _); [|done]. simpl.
  rewrite fold_delete_lookup.
  destruct (decide (k ∈ _)) as [Hin|Hnin].
  - apply keys_to_delete_elem_of in Hin as (v & Hin & Hv).
    apply elem_of_map_to_list in Hin. by rewrite Hin, Hv.
  - destruct (Cache.data self !! k) as [v|] eqn:Ek; [|done].
    destruct (Qle_bool (Answer.expiration v) _) eqn:Ev; [|done].
    exfalso. apply Hnin, keys_to_delete_elem_of. exists v.
    split; [by apply elem_of_map_to_list|done].
Qed.

Lemma maybe_clean_lookup_Some self w k v :
  Cache.data (Cache._maybe_clean self w).1 !! k = Some v ->
  Cache.data self !! k = Some v.
Proof.
  rewrite maybe_clean_lookup.
  destruct (Qle_bool (Cache.next_cleaning self) _); [|done].
  destruct (Cache.data self !! k) as [v0|]; [|done].
  by destruct (Qle_bool (Answer.expiration v0) _).
Qed.

(** What [Cache.get] returns was found in the map and was tested against
    the last clock reading of the call. *)
Lemma Cache_get_Some self key w v self' w' :
  Cache.get self key w = (Some v, self', w') ->
  exists n,
    ticks w' = S n /\ ticks w < n + 1 /\ readings w' = readings w
    /\ ~ (Answer.expiration v <= readings w n)%Q
    /\ Cache.data self' !! key = Some v
    /\ Cache.data self !! key = Some v.
Proof.
  unfold Cache.get.
  destruct (maybe_clean_clock self w) as [n Hw].
  pose proof (maybe_clean_lookup_Some self w key) as Hsub.
  destruct (Cache._maybe_clean self w) as [self1 w1]. simpl in Hw, Hsub. subst w1.
  destruct (Cache.data self1 !! key) as [v1|] eqn:Ek; [|done].
  simpl. destruct (Qle_bool _ _) eqn:Et; [done|].
  intros [= <- <- <-]. exists (ticks w + S n). simpl.
  split; [done|]. split; [lia|]. split; [done|].
  split; [by apply Qle_bool_false|]. split; [done|by apply Hsub].
Qed.

Lemma set_prev_inv a v h h' :
  LRUCacheNode.set_prev a v h = (Ok tt, h') -> assigns_prev h a v h'.
Proof.
  unfold LRUCacheNode.set_prev, mbind, M_bind, LRUCacheNode.load.
  destruct (h !! a) as [nd|] eqn:E; [|done].
  intros Hs. destruct (set_prev_effect h a v) as (h2 & Hs2 & Heff); [eauto|].
  unfold LRUCacheNode.set_prev, mbind, M_bind, LRUCacheNode.load in Hs2.
  rewrite E in Hs2. congruence.
Qed.

Lemma set_next_inv a v h h' :
  LRUCacheNode.set_next a v h = (Ok tt, h') -> assigns_next h a v h'.
Proof.
  unfold LRUCacheNode.set_next, mbind, M_bind, LRUCacheNode.load.
  destruct (h !! a) as [nd|] eqn:E; [|done].
  intros Hs. destruct (set_next_effect h a v) as (h2 & Hs2 & Heff); [eauto|].
  unfold LRUCacheNode.set_next, mbind, M_bind, LRUCacheNode.load in Hs2.
  rewrite E in Hs2. congruence.
Qed.

(** [unlink] never touches a key or a value, whatever the store. *)
Lemma unlink_payload a h h' :
  LRUCacheNode.unlink a h = (Ok tt, h') ->
  (forall b, fkey h' b = fkey h b) /\ (forall b, fvalue h' b = fvalue h b).
Proof.
  unfold LRUCacheNode.unlink, mbind, M_bind.
  destruct (LRUCacheNode.load a h) as [[nd|e] h0] eqn:El; [|done].
  assert (h0 = h) as ->.
  { unfold LRUCacheNode.load in El. destruct (h !! a); by injection El. }
  destruct (LRUCacheNode.set_prev _ _ h) as [[[]|e] h1] eqn:E1; [|done].
  destruct (LRUCacheNode.load a h1) as [[nd1|e] h1'] eqn:El1; [|done].
  assert (h1' = h1) as ->.
  { unfold LRUCacheNode.load in El1. destruct (h1 !! a); by injection El1. }
  intros E2.
  apply set_prev_inv in E1 as (_ & _ & K1 & V1).
  apply set_next_inv in E2 as (_ & _ & K2 & V2).
  split; intros b; [by rewrite K2, K1|by rewrite V2, V1].
Qed.

(** [LRUCache.get] of a key that has a node, step by step. *)
Lemma lru_get_unfold c w key node :
  LRUCache.data c !! key = Some node ->
  LRUCache.get key (c, w)
  = match LRUCacheNode.unlink node (LRUCache.nodes c) with
    | (Raise e, h') => (Raise e, (LRUCache.with_nodes h' c, w))
    | (Ok _, h') =>
      match h' !! node with
      | None => (Raise (SystemError "dangling reference"),
                 (LRUCache.with_nodes h' c, w))
      | Some nd =>
        match LRUCacheNode.value nd with
        | None => (Raise (AttributeError "expiration"),
                   (LRUCache.with_nodes h' c, w))
        | Some v =>
          let w' := mkClock (readings w) (S (ticks w)) in
          if Qle_bool (Answer.expiration v) (readings w (ticks w)) then
            match LRUCache.del_data (LRUCacheNode.key nd)
                                    (LRUCache.with_nodes h' c) with
            | (Ok _, c1) => (Ok None, (c1, w'))
            | (Raise e, c1) => (Raise e, (c1, w'))
            end
          else
            match LRUCacheNode.link_after node (LRUCache.sentinel c) h' with
            | (Ok _, h'') => (Ok (Some v), (LRUCache.with_nodes h'' c, w'))
            | (Raise e, h'') => (Raise e, (LRUCache.with_nodes h'' c, w'))
            end
        end
      end
    end.
Proof.
  intros Hk.
  unfold LRUCache.get, mbind, M_bind, gets, with_clock,
    LRUCache.on_nodes, now, LRUCacheNode.load, mret, M_ret, raise.
  unfold zoom. cbn [fst snd]. rewrite Hk. cbn beta iota zeta delta [fst snd].
  destruct (LRUCacheNode.unlink node (LRUCache.nodes c)) as [[[]|e] h'];
    cbn [fst snd LRUCache.nodes LRUCache.with_nodes]; [|reflexivity].
  destruct (h' !! node) as [nd|]; cbn [fst snd]; [|done].
  destruct (LRUCacheNode.value nd) as [v|]; [|done].
  cbn [fst snd time_time readings ticks].
  destruct (Qle_bool _ _).
  - destruct (LRUCache.del_data (LRUCacheNode.key nd) _) as [[[]|e] c1];
      reflexivity.
  - cbn [fst snd LRUCache.sentinel LRUCache.nodes LRUCache.with_nodes].
    destruct (LRUCacheNode.link_after node _ h') as [[[]|e] c1]; reflexivity.
Qed.

(** The value [LRUCache.get] tests, when the key has a node. *)
Lemma lru_get_outcome c w key node :
  LRUCache.data c !! key = Some node ->
  (exists e s, LRUCache.get key (c, w) = (Raise e, s))
  \/ exists v,
       fvalue (LRUCache.nodes c) node = Some (Some v)
       /\ ((Qle_bool (Answer.expiration v) (readings w (ticks w)) = true
            /\ exists r c',
                 LRUCache.get key (c, w)
                 = (r, (c', mkClock (readings w) (S (ticks w))))
                 /\ (r = Ok None \/ exists e, r = Raise e))
           \/ (Qle_bool (Answer.expiration v) (readings w (ticks w)) = false
               /\ exists r c',
                    LRUCache.get key (c, w)
                    = (r, (c', mkClock (readings w) (S (ticks w))))
                    /\ (r = Ok (Some v) \/ exists e, r = Raise e))).
Proof.
  intros Hk. rewrite (lru_get_unfold c w key node Hk).
  destruct (LRUCacheNode.unlink node (LRUCache.nodes c)) as [[[]|e] h'] eqn:Eu;
    [|left; eauto].
  destruct (unlink_payload _ _ _ Eu) as [_ V'].
  destruct (h' !! node) as [nd|] eqn:En; [|left; eauto].
  destruct (LRUCacheNode.value nd) as [v|] eqn:Ev; [|left; eauto].
  right. exists v. split.
  { rewrite <- V'. unfold fvalue. by rewrite En, <- Ev. }
  cbn zeta.
  destruct (Qle_bool _ _); [left|right]; (split; [done|]).
  - destruct (LRUCache.del_data (LRUCacheNode.key nd) _) as [[[]|e] c1];
      eauto 10.
  - destruct (LRUCacheNode.link_after node _ h') as [[[]|e] c1]; eauto 10.
Qed.

(** C4.  Neither cache returns a stale answer from [get]: the answer
    returned was tested against the clock during the call and expires
    after that reading.  An entry that is stale at every reading of the
    call is never returned. *)
Theorem cache_get_fresh :
  (forall self key w v self' w',
     Cache.get self key w = (Some v, self', w') ->
     exists n,
       ticks w' = S n /\ ticks w < n + 1 /\ readings w' = readings w
       /\ ~ (Answer.expiration v <= readings w n)%Q
       /\ Cache.data self' !! key = Some v
       /\ Cache.data self !! key = Some v)
  /\ (forall c key w v s',
        LRUCache.get key (c, w) = (Ok (Some v), s') ->
        s'.2 = mkClock (readings w) (S (ticks w))
        /\ ~ (Answer.expiration v <= readings w (ticks w))%Q)
  /\ (forall self key w v,
        Cache.data self !! key = Some v ->
        (forall n, ticks w < n + 1 -> (Answer.expiration v <= readings w n)%Q) ->
        (Cache.get self key w).1.1 = None)
  /\ (forall c key w node v,
        LRUCache.data c !! key = Some node ->
        fvalue (LRUCache.nodes c) node = Some (Some v) ->
        (Answer.expiration v <= readings w (ticks w))%Q ->
        forall v', (LRUCache.get key (c, w)).1 <> Ok (Some v')).
Proof.
  split; [exact Cache_get_Some|]. split; [|split].
  - intros c key w v s' Hg.
    destruct (LRUCache.data c !! key) as [node|] eqn:Ek.
    + destruct (lru_get_outcome c w key node Ek)
        as [(e & s & He)|(v0 & _ & [(_ & r & c' & Hr & Hcase)
                                    |(Ht & r & c' & Hr & Hcase)])].
      * congruence.
      * rewrite Hg in Hr. injection Hr as <- ->.
        by destruct Hcase as [?|[? ?]].
      * rewrite Hg in Hr. injection Hr as <- ->.
        destruct Hcase as [[= <-]|[? ?]]; [|done].
        split; [done|]. by apply Qle_bool_false.
    + rewrite lru_get_miss in Hg by done. done.
  - intros self key w v Hk Hstale.
    destruct (Cache.get self key w) as [[[v'|] self'] w'] eqn:Hg; [|done].
    exfalso.
    apply Cache_get_Some in Hg as (n & _ & Hn & _ & Hfresh & _ & Hk').
    rewrite Hk in Hk'. injection Hk' as <-. by apply Hfresh, Hstale.
  - intros c key w node v Hk Hv Hstale v' Hg.
    destruct (lru_get_outcome c w key node Hk)
      as [(e & s & He)|(v0 & Hv0 & [(_ & r & c' & Hr & Hcase)
                                    |(Ht & r & c' & Hr & Hcase)])].
    + by rewrite He in Hg.
    + rewrite Hr in Hg. simpl in Hg. subst r.
      by destruct Hcase as [?|[? ?]].
    + apply Qle_bool_false in Ht. apply Ht.
      rewrite Hv in Hv0. by injection Hv0 as <-.
Qed.

Lemma cache_get_fresh_witness :
  exists v, (Cache.get cache_example (key_of "a") (clock_at 0)).1.1 = Some v
            /\ ~ (Answer.expiration v <= 0)%Q.
Proof.
  destruct (proj1 cache_get_fresh cache_example (key_of "a") (clock_at 0)
                  (answer_until 100) cache_example
                  (mkClock (fun _ => 0%Q) 2) eq_refl)
    as (n & _ & _ & _ & Hfresh & _).
  exists (answer_until 100). split; [reflexivity|exact Hfresh].
Defined.

(** ** What removes a stale entry *)

(** C10.  In the simple cache, a [get] that finds a stale entry before the
    cleaning deadline returns [None] and leaves the cache as it is; so do
    [get] and [put] of other keys.  The entry goes in a cleaning pass, once
    the deadline is reached, or in a [flush].  In the LRU cache, the [get]
    that finds the stale entry deletes it from the map. *)
Theorem stale_entry_removal :
  (forall self key w v,
     Cache.data self !! key = Some v ->
     ~ (Cache.next_cleaning self <= readings w (ticks w))%Q ->
     (Answer.expiration v <= readings w (S (ticks w)))%Q ->
     Cache.get self key w
     = (None, self, mkClock (readings w) (S (S (ticks w)))))
  /\ (forall self key w,
        ~ (Cache.next_cleaning self <= readings w (ticks w))%Q ->
        (Cache.get self key w).1.2 = self)
  /\ (forall self key key' value w,
        ~ (Cache.next_cleaning self <= readings w (ticks w))%Q ->
        key' <> key ->
        Cache.data (Cache.put self key' value w).1 !! key
        = Cache.data self !! key)
  /\ (forall self key w v,
        Cache.data self !! key = Some v ->
        (Cache.next_cleaning self <= readings w (ticks w))%Q ->
        (Answer.expiration v <= readings w (ticks w))%Q ->
        Cache.data (Cache._maybe_clean self w).1 !! key = None
        /\ Cache.data (Cache.get self key w).1.2 !! key = None)
  /\ (forall self key w,
        Cache.data (Cache.flush self (Some key) w).1 !! key = None
        /\ Cache.data (Cache.flush self None w).1 = ∅)
  /\ (forall c l key node v w,
        lru_inv c l ->
        LRUCache.data c !! key = Some node ->
        fvalue (LRUCache.nodes c) node = Some (Some v) ->
        (Answer.expiration v <= readings w (ticks w))%Q ->
        exists c',
          LRUCache.get key (c, w)
          = (Ok None, (c', mkClock (readings w) (S (ticks w))))
          /\ LRUCache.data c' = delete key (LRUCache.data c)
          /\ LRUCache.data c' !! key = None).
Proof.
  assert (forall self w,
    ~ (Cache.next_cleaning self <= readings w (ticks w))%Q ->
    Cache._maybe_clean self w = (self, mkClock (readings w) (S (ticks w))))
    as Hkeep.
  { intros self w Hnot. unfold Cache._maybe_clean. simpl.
    apply Qle_bool_false in Hnot. by rewrite Hnot. }
  splits.
  - intros self key w v Hk Hnot Hstale.
    unfold Cache.get. rewrite (Hkeep self w Hnot), Hk. simpl.
    apply Qle_bool_iff in Hstale. by rewrite Hstale.
  - intros self key w Hnot.
    unfold Cache.get. rewrite (Hkeep self w Hnot).
    destruct (Cache.data self !! key) as [v|]; [|done]. simpl.
    by destruct (Qle_bool _ _).
  - intros self key key' value w Hnot Hne.
    unfold Cache.put. rewrite (Hkeep self w Hnot). simpl.
    by apply lookup_insert_ne.
  - intros self key w v Hk Hdue Hstale.
    assert (Cache.data (Cache._maybe_clean self w).1 !! key = None) as Hgone.
    { rewrite maybe_clean_lookup, Hk.
      apply Qle_bool_iff in Hdue, Hstale. by rewrite Hdue, Hstale. }
    split; [done|]. unfold Cache.get.
    destruct (Cache._maybe_clean self w) as [self1 w1]. simpl in Hgone.
    by rewrite Hgone.
  - intros self key w. split; [apply lookup_delete_eq|done].
  - intros c l key node v w Hinv Hk Hv Hstale.
    destruct (lru_inv_lookup_Some _ _ _ _ Hinv Hk) as (l1 & l2 & ->).
    destruct (lru_get_hit c w _ _ _ _ Hinv)
      as (v0 & Hv0 & [(_ & c' & Hg & _ & Hd & _)|(Ht & _)]).
    + exists c'. split; [done|]. split; [done|].
      rewrite Hd. apply lookup_delete_eq.
    + rewrite Hv in Hv0. injection Hv0 as <-.
      apply Qle_bool_false in Ht. done.
Qed.

Lemma stale_entry_removal_witness :
  Cache.get cache_example (key_of "a") (clock_from 200)
  = (None, cache_example, mkClock (readings (clock_from 200)) 2)
  /\ exists c',
       LRUCache.get (key_of "a") (lru_two, clock_from 200)
       = (Ok None, (c', mkClock (readings (clock_from 200)) 1))
       /\ LRUCache.data c' !! key_of "a" = None.
Proof.
  split.
  - apply (proj1 stale_entry_removal cache_example (key_of "a")
                 (clock_from 200) (answer_until 100)).
    + reflexivity.
    + vm_compute. intros H. by apply H.
    + vm_compute. discriminate.
  - destruct (lru_run_spec [LruPut (key_of "a") (answer_until 100);
                            LruPut (key_of "b") (answer_until 100)]
                           [] (LRUCache.__init__ 2) (clock_at 0) [])
      as (c & w' & l & Hrun & Hinv & _).
    { apply lru_init_inv. }
    { split; [constructor|]. by intros k ?%elem_of_nil. }
    assert (c = lru_two) as -> by (unfold lru_two; by rewrite Hrun).
    destruct (proj2 (proj2 (proj2 (proj2 (proj2 stale_entry_removal))))
                lru_two l (key_of "a") 1 (answer_until 100) (clock_from 200)
                Hinv)
      as (c' & Hg & _ & Hnone).
    + vm_compute. reflexivity.
    + vm_compute. reflexivity.
    + vm_compute. discriminate.
    + exists c'. split; [exact Hg|exact Hnone].
Defined.

(** ** NXDOMAIN across the search list *)

(** C8, as the code has it.  With the search list
    [corp.example., example.], [ndots = 1] and every query answered with
    NXDOMAIN, [resolve("host")] raises [NXDOMAIN].  Its qnames are
    [host.corp.example., host.example.], in the order in which the
    candidates were built; they were tried in the opposite order
    ([host.example.] in the first transport call, [host.corp.example.] in
    the second), and [host.] was never a candidate.  The responses map has
    an entry for each of the two names and for no other. *)
Theorem nxdomain_across_search_list (fuel : nat) :
  exists kw responses r1 r2,
    (resolve (5 + fuel) env_nxdomain host rdatatype.A rdataclass.IN false None
             true 0 None (Some true) (resolver_search, frozen_clock)).1
    = Raise (NXDOMAIN kw)
    /\ NXDOMAIN.qnames kw = Ok [host_corp_example; host_example]
    /\ NXDOMAIN.responses kw = Ok responses
    /\ dom responses = {[host_corp_example; host_example]}
    /\ NXDOMAIN.response kw host_example = Ok r1
    /\ NXDOMAIN.response kw host_corp_example = Ok r2
    /\ msg_rcode r1 = rcode.NXDOMAIN /\ msg_flags r1 = Some 0%Z
    /\ msg_rcode r2 = rcode.NXDOMAIN /\ msg_flags r2 = Some 1%Z
    /\ NXDOMAIN.response kw host_root = Raise KeyError.
Proof.
  change (5 + fuel) with (S (S (S (S (S fuel))))).
  pose (query := fun q => Some (use_edns (-1) 0 0
                            (make_query q rdatatype.A rdataclass.IN))).
  pose (r1 := stamped_reply rcode.NXDOMAIN 0 (query host_example)).
  pose (r2 := stamped_reply rcode.NXDOMAIN 1 (query host_corp_example)).
  pose (responses := <[host_corp_example := r2]>
                       (<[host_example := r1]> (∅ : gmap Name.t Message))).
  exists (mkKwargs (Some [host_corp_example; host_example]) (Some responses)),
         responses, r1, r2.
  split; [vm_compute; reflexivity|].
  split; [reflexivity|]. split; [reflexivity|].
  split.
  { subst responses. rewrite !dom_insert_L, dom_empty_L. set_solver. }
  splits; vm_compute; reflexivity.
Qed.

(** C8 as stated fails: [resolve("host")] in that scenario reports two
    qnames, not three, and has no response for [host.]. *)
Lemma nxdomain_across_search_list_counterexample :
  exists kw,
    (resolve 8 env_nxdomain host rdatatype.A rdataclass.IN false None
             true 0 None (Some true) (resolver_search, frozen_clock)).1
    = Raise (NXDOMAIN kw)
    /\ NXDOMAIN.qnames kw <> Ok [host_corp_example; host_example; host_root]
    /\ NXDOMAIN.response kw host_root = Raise KeyError.
Proof.
  eexists. split; [vm_compute; reflexivity|].
  split; [discriminate|]. vm_compute. reflexivity.
Qed.
